(** * clg::ref, clg::table_view and converter<clg::ref> (include/ref.hpp)

    A shallow embedding of the reference handles of cpp_lua_glue over a small
    model of the Lua C API, and the properties of the handle subsystem proved
    on it.

    Layout:
    - the interpreter: values, tables, the registry, the value stack;
    - the exits of a C++ call (return, exception, abort) as a monad;
    - the Lua C API primitives that ref.hpp calls;
    - the collaborators declared in converter.hpp / value.hpp;
    - class ref, class table_view, struct converter<clg::ref>;
    - the vocabulary of the properties and the states of the examples;
    - the properties. *)

From stdpp Require Import gmap strings list fin_maps.
From Stdlib Require Import Ascii.

Local Open Scope Z_scope.

(** ** The interpreter *)

(** A Lua value as the C API sees it. Tables are heap objects named by an
    address; functions and userdata are opaque objects. *)
Inductive lua_value : Type :=
| LNil
| LBoolean (b : bool)
| LNumber (n : Z)
| LString (s : string)
| LTable (a : nat)
| LFunction (f : nat)
| LUserdata (u : nat).

Global Instance lua_value_eq_dec : EqDecision lua_value.
Proof. solve_decision. Defined.

Definition lua_value_code (v : lua_value)
  : unit + bool + Z + string + nat + nat + nat :=
  match v with
  | LNil => inl (inl (inl (inl (inl (inl tt)))))
  | LBoolean b => inl (inl (inl (inl (inl (inr b)))))
  | LNumber n => inl (inl (inl (inl (inr n))))
  | LString s => inl (inl (inl (inr s)))
  | LTable a => inl (inl (inr a))
  | LFunction f => inl (inr f)
  | LUserdata u => inr u
  end.

Definition lua_value_decode (c : unit + bool + Z + string + nat + nat + nat)
  : lua_value :=
  match c with
  | inl (inl (inl (inl (inl (inl _))))) => LNil
  | inl (inl (inl (inl (inl (inr b))))) => LBoolean b
  | inl (inl (inl (inl (inr n)))) => LNumber n
  | inl (inl (inl (inr s))) => LString s
  | inl (inl (inr a)) => LTable a
  | inl (inr f) => LFunction f
  | inr u => LUserdata u
  end.

Global Instance lua_value_countable : Countable lua_value.
Proof.
  apply (inj_countable' lua_value_code lua_value_decode).
  intros []; reflexivity.
Defined.

(** The type tags of lua.h. *)
Definition LUA_TNIL : Z := 0.
Definition LUA_TBOOLEAN : Z := 1.
Definition LUA_TNUMBER : Z := 3.
Definition LUA_TSTRING : Z := 4.
Definition LUA_TTABLE : Z := 5.
Definition LUA_TFUNCTION : Z := 6.
Definition LUA_TUSERDATA : Z := 7.

Definition lua_type_of (v : lua_value) : Z :=
  match v with
  | LNil => LUA_TNIL
  | LBoolean _ => LUA_TBOOLEAN
  | LNumber _ => LUA_TNUMBER
  | LString _ => LUA_TSTRING
  | LTable _ => LUA_TTABLE
  | LFunction _ => LUA_TFUNCTION
  | LUserdata _ => LUA_TUSERDATA
  end.

(** A table: its raw fields (a nil value is an absent key) and its
    metatable, itself a table address. *)
Record table_obj : Type := mk_table {
  tfields : gmap lua_value lua_value;
  tmeta : option nat
}.

(** The interpreter state reached through a lua_State*.
    - [stack]: the value stack of the running C function, top first, so
      that index -1 is the head;
    - [registry]: the integer-keyed part of the registry table that
      luaL_ref / luaL_unref manage;
    - [tables]: the heap of tables;
    - [type_meta]: the metatables shared by all values of a non-table type,
      keyed by type tag. *)
Record lua_State : Type := mk_State {
  stack : list lua_value;
  registry : gmap Z lua_value;
  tables : gmap nat table_obj;
  type_meta : gmap Z nat
}.

Definition set_stack (s : list lua_value) (L : lua_State) : lua_State :=
  {| stack := s; registry := registry L; tables := tables L;
     type_meta := type_meta L |}.

Definition set_registry (r : gmap Z lua_value) (L : lua_State) : lua_State :=
  {| stack := stack L; registry := r; tables := tables L;
     type_meta := type_meta L |}.

Definition set_tables (t : gmap nat table_obj) (L : lua_State) : lua_State :=
  {| stack := stack L; registry := registry L; tables := t;
     type_meta := type_meta L |}.

Definition set_type_meta (t : gmap Z nat) (L : lua_State) : lua_State :=
  {| stack := stack L; registry := registry L; tables := tables L;
     type_meta := t |}.

(** lua_gettop, as a function of the state. *)
Definition gettop (L : lua_State) : Z := Z.of_nat (length (stack L)).

(** The value at an acceptable stack index: positive indices count from the
    bottom (1 is the first pushed value), negative ones from the top. *)
Definition index2value (L : lua_State) (idx : Z) : option lua_value :=
  if decide (idx < 0) then stack L !! Z.to_nat (- idx - 1)
  else if decide (0 < idx ∧ idx ≤ gettop L)
       then stack L !! Z.to_nat (gettop L - idx)
       else None.

(** A lua_State*: null, or the address of the interpreter. The development
    follows one interpreter; every non-null pointer designates it. *)
Definition lua_State_ptr : Type := option positive.

(** ** Exits of a call *)

(** What stops a call for good: a failed assert, the stack integrity check,
    an exception leaving a noexcept function, a null lua_State*, an error
    raised by the interpreter (lua_error), or a call outside the API's
    contract. *)
Inductive fault : Type :=
| AssertionFailed
| StackImbalance
| Terminate
| NullState
| LuaError
| ApiViolation.

(** A conversion error thrown by a converter. *)
Definition conv_error : Type := string.

Inductive exit (A : Type) : Type :=
| Return (L : lua_State) (a : A)
| Throw (L : lua_State) (e : conv_error)
| Abort (f : fault).
Arguments Return {A} L a.
Arguments Throw {A} L e.
Arguments Abort {A} f.

Definition M (A : Type) : Type := lua_State → exit A.

Global Instance M_ret : MRet M := λ A a L, Return L a.

Global Instance M_bind : MBind M := λ A B k m L,
  match m L with
  | Return L' a => k a L'
  | Throw L' e => Throw L' e
  | Abort f => Abort f
  end.

Definition throw {A} (e : conv_error) : M A := λ L, Throw L e.

Definition abort {A} (f : fault) : M A := λ _, Abort f.

(** try { body } catch (...) { handler } *)
Definition try_catch {A} (body : M A) (handler : conv_error → M A) : M A :=
  λ L, match body L with
       | Throw L' e => handler e L'
       | r => r
       end.

(** A function declared noexcept: an exception that reaches its boundary
    calls std::terminate. *)
Definition noexcept {A} (body : M A) : M A :=
  λ L, match body L with
       | Throw _ _ => Abort Terminate
       | r => r
       end.

(** assert(cond) *)
Definition assert_ (cond : bool) : M unit :=
  if cond then mret tt else abort AssertionFailed.

(** ** The Lua C API used by ref.hpp

    Following the Lua reference manual. Each primitive takes the lua_State*
    it is called on. *)

Definition on_state {A} (l : lua_State_ptr) (m : M A) : M A :=
  match l with
  | None => abort NullState
  | Some _ => m
  end.

Definition lua_gettop (l : lua_State_ptr) : M Z :=
  on_state l (λ L, Return L (gettop L)).

(** lua_pop(L, n): removes the n topmost values. *)
Definition lua_pop (l : lua_State_ptr) (n : Z) : M unit :=
  on_state l (λ L,
    if decide (0 ≤ n ∧ n ≤ gettop L)
    then Return (set_stack (drop (Z.to_nat n) (stack L)) L) tt
    else Abort ApiViolation).

Definition push (v : lua_value) (L : lua_State) : lua_State :=
  set_stack (v :: stack L) L.

Definition lua_pushnil (l : lua_State_ptr) : M unit :=
  on_state l (λ L, Return (push LNil L) tt).

Definition lua_pushstring (l : lua_State_ptr) (s : string) : M unit :=
  on_state l (λ L, Return (push (LString s) L) tt).

(** lua_pushvalue(L, idx): pushes a copy of the value at the index. *)
Definition lua_pushvalue (l : lua_State_ptr) (idx : Z) : M unit :=
  on_state l (λ L,
    match index2value L idx with
    | Some v => Return (push v L) tt
    | None => Abort ApiViolation
    end).

Definition lua_isnil (l : lua_State_ptr) (idx : Z) : M bool :=
  on_state l (λ L,
    Return L (match index2value L idx with Some LNil => true | _ => false end)).

Definition lua_istable (l : lua_State_ptr) (idx : Z) : M bool :=
  on_state l (λ L,
    Return L (match index2value L idx with
              | Some (LTable _) => true
              | _ => false
              end)).

Definition lua_isfunction (l : lua_State_ptr) (idx : Z) : M bool :=
  on_state l (λ L,
    Return L (match index2value L idx with
              | Some (LFunction _) => true
              | _ => false
              end)).

(** The pseudo-index of the registry, the only table ref.hpp addresses by
    integer key. *)
Inductive pseudo_index : Type := LUA_REGISTRYINDEX.

Definition LUA_REFNIL : Z := -1.

(** lua_rawgeti(L, LUA_REGISTRYINDEX, n): pushes registry[n], nil when the
    key is absent. *)
Definition lua_rawgeti (l : lua_State_ptr) (t : pseudo_index) (n : Z) : M unit :=
  on_state l (λ L, Return (push (default LNil (registry L !! n)) L) tt).

(** The reference luaL_ref hands out: an integer key not in use. The manual
    only promises uniqueness; the model takes the key after the largest one
    in use, so references are positive. *)
Definition fresh_ref (reg : gmap Z lua_value) : Z :=
  Z.succ (map_fold (λ k _ acc, Z.max k acc) 0 reg).

(** luaL_ref(L, LUA_REGISTRYINDEX): pops the top value; nil gets the fixed
    reference LUA_REFNIL and no entry, any other value a fresh key. *)
Definition luaL_ref (l : lua_State_ptr) (t : pseudo_index) : M Z :=
  on_state l (λ L,
    match stack L with
    | [] => Abort ApiViolation
    | LNil :: s => Return (set_stack s L) LUA_REFNIL
    | v :: s =>
        let r := fresh_ref (registry L) in
        Return (set_registry (<[r := v]> (registry L)) (set_stack s L)) r
    end).

(** luaL_unref(L, LUA_REGISTRYINDEX, ref): removes the entry; does nothing
    for a negative ref (LUA_NOREF, LUA_REFNIL). *)
Definition luaL_unref (l : lua_State_ptr) (t : pseudo_index) (r : Z) : M unit :=
  on_state l (λ L,
    if decide (0 ≤ r)
    then Return (set_registry (delete r (registry L)) L) tt
    else Return L tt).

(** The metatable of a value: a table's own, or its type's. *)
Definition metatable_of (L : lua_State) (v : lua_value) : option nat :=
  match v with
  | LTable a => t ← tables L !! a; tmeta t
  | _ => type_meta L !! lua_type_of v
  end.

(** lua_getmetatable(L, idx): pushes the metatable and returns 1, or pushes
    nothing and returns 0. *)
Definition lua_getmetatable (l : lua_State_ptr) (idx : Z) : M bool :=
  on_state l (λ L,
    match index2value L idx with
    | None => Abort ApiViolation
    | Some v =>
        match metatable_of L v with
        | Some mt => Return (push (LTable mt) L) true
        | None => Return L false
        end
    end).

Definition set_metatable_of (v : lua_value) (mt : option nat) (L : lua_State)
  : lua_State :=
  match v with
  | LTable a =>
      match tables L !! a with
      | Some t =>
          set_tables (<[a := {| tfields := tfields t; tmeta := mt |}]> (tables L)) L
      | None => L
      end
  | _ =>
      match mt with
      | Some m => set_type_meta (<[lua_type_of v := m]> (type_meta L)) L
      | None => set_type_meta (delete (lua_type_of v) (type_meta L)) L
      end
  end.

(** lua_setmetatable(L, idx): pops a table or nil and installs it as the
    metatable of the value at the index. *)
Definition lua_setmetatable (l : lua_State_ptr) (idx : Z) : M unit :=
  on_state l (λ L,
    match index2value L idx, stack L with
    | Some v, LNil :: s => Return (set_metatable_of v None (set_stack s L)) tt
    | Some v, LTable mt :: s =>
        Return (set_metatable_of v (Some mt) (set_stack s L)) tt
    | _, _ => Abort ApiViolation
    end).

(** *** Table access

    Raw access goes straight to the fields of a table. Regular access
    (lua_getfield, lua_settable) consults the metamethods __index and
    __newindex when the key is not present or the value is not a table, as
    luaV_finishget and luaV_finishset do. *)

Definition rawget_tab (L : lua_State) (a : nat) (k : lua_value) : lua_value :=
  default LNil (t ← tables L !! a; tfields t !! k).

(** t[k] = v without metamethods; a nil value removes the key. *)
Definition rawset_tab (a : nat) (k v : lua_value) (L : lua_State) : lua_State :=
  match tables L !! a with
  | Some t =>
      let fields :=
        if decide (v = LNil) then delete k (tfields t) else <[k := v]> (tfields t) in
      set_tables (<[a := {| tfields := fields; tmeta := tmeta t |}]> (tables L)) L
  | None => L
  end.

(** luaT_gettmbyobj: the handler of an event, looked up raw in the
    metatable of the value; nil when there is none. *)
Definition luaT_gettmbyobj (L : lua_State) (v : lua_value) (event : string)
  : lua_value :=
  match metatable_of L v with
  | Some mt => rawget_tab L mt (LString event)
  | None => LNil
  end.

(** luaV_fastget: the raw value of the key when t is a table that has it. *)
Definition luaV_fastget (L : lua_State) (t k : lua_value) : option lua_value :=
  match t with
  | LTable a =>
      match rawget_tab L a k with
      | LNil => None
      | v => Some v
      end
  | _ => None
  end.

Definition MAXTAGLOOP : nat := 2000.

Section Interpreter.

(** Running a function object as a metamethod handler: the interpreter
    executes it in a frame of its own and hands back the state it leaves
    and its first result, or raises an error ([None]). *)
Variable luaT_callTM :
  nat → list lua_value → lua_State → option (lua_State * lua_value).

Fixpoint luaV_finishget (loop : nat) (t k : lua_value) (L : lua_State)
  : option (lua_State * lua_value) :=
  match loop with
  | O => None
  | S loop' =>
      match luaT_gettmbyobj L t "__index" with
      | LNil =>
          match t with
          | LTable _ => Some (L, LNil)
          | _ => None
          end
      | LFunction f => luaT_callTM f [t; k] L
      | tm =>
          match luaV_fastget L tm k with
          | Some v => Some (L, v)
          | None => luaV_finishget loop' tm k L
          end
      end
  end.

Definition luaV_gettable (t k : lua_value) (L : lua_State)
  : option (lua_State * lua_value) :=
  match luaV_fastget L t k with
  | Some v => Some (L, v)
  | None => luaV_finishget MAXTAGLOOP t k L
  end.

Fixpoint luaV_finishset (loop : nat) (t k v : lua_value) (L : lua_State)
  : option lua_State :=
  match loop with
  | O => None
  | S loop' =>
      match luaT_gettmbyobj L t "__newindex", t with
      | LNil, LTable a =>
          if decide (k = LNil) then None else Some (rawset_tab a k v L)
      | LNil, _ => None
      | LFunction f, _ => fst <$> luaT_callTM f [t; k; v] L
      | tm, _ =>
          match tm, luaV_fastget L tm k with
          | LTable a', Some _ => Some (rawset_tab a' k v L)
          | _, _ => luaV_finishset loop' tm k v L
          end
      end
  end.

Definition luaV_settable (t k v : lua_value) (L : lua_State)
  : option lua_State :=
  match t, luaV_fastget L t k with
  | LTable a, Some _ => Some (rawset_tab a k v L)
  | _, _ => luaV_finishset MAXTAGLOOP t k v L
  end.

(** lua_getfield(L, idx, k): pushes t[k] for the value t at the index,
    metamethods included. *)
Definition lua_getfield (l : lua_State_ptr) (idx : Z) (k : string) : M unit :=
  on_state l (λ L,
    match index2value L idx with
    | None => Abort ApiViolation
    | Some t =>
        match luaV_gettable t (LString k) L with
        | Some (L', v) => Return (push v L') tt
        | None => Abort LuaError
        end
    end).

(** lua_settable(L, idx): t[k] = v for the value t at the index, v the top
    and k the value below it, metamethods included; pops both. *)
Definition lua_settable (l : lua_State_ptr) (idx : Z) : M unit :=
  on_state l (λ L,
    match index2value L idx, stack L with
    | Some t, v :: k :: s =>
        match luaV_settable t k v (set_stack s L) with
        | Some L' => Return L' tt
        | None => Abort LuaError
        end
    | _, _ => Abort ApiViolation
    end).

(** lua_rawset(L, idx): as lua_settable, without metamethods; the value at
    the index must be a table. *)
Definition lua_rawset (l : lua_State_ptr) (idx : Z) : M unit :=
  on_state l (λ L,
    match index2value L idx, stack L with
    | Some (LTable a), v :: k :: s =>
        if decide (k = LNil) then Abort LuaError
        else Return (rawset_tab a k v (set_stack s L)) tt
    | _, _ => Abort ApiViolation
    end).

(** ** Collaborators (converter.hpp, value.hpp) *)

(** Modelled from the spec: clg::checkThread of the absent headers, the
    thread affinity check. It fails when the caller is not the thread that
    owns the interpreter; the development follows calls made on the owning
    thread, where it passes. *)
Definition checkThread : M unit := mret tt.

(** Modelled from the spec: clg::stack_integrity_check of the absent
    headers. It records the stack height when it is constructed and, when
    its scope is left by a return or by an exception, faults unless the
    height is the recorded one. *)
Definition stack_integrity_check {A} (l : lua_State_ptr) (body : M A) : M A :=
  h ← lua_gettop l;
  ((λ L, match body L with
         | Return L' a =>
             if decide (gettop L' = h) then Return L' a else Abort StackImbalance
         | Throw L' e =>
             if decide (gettop L' = h) then Throw L' e else Abort StackImbalance
         | Abort f => Abort f
         end) : M A).

(** Modelled from the spec: clg::any_to_string of the absent headers, the
    render capability: a display string for the value at a stack position,
    which never propagates an error. [render] is the text it gives in an
    interpreter state. *)
Variable render : lua_State → Z → string.

(** Modelled from the spec: the call clg::any_to_string(l, idx), which
    reads the state and leaves it as it is. *)
Definition any_to_string (l : lua_State_ptr) (idx : Z) : M string :=
  on_state l (λ L, Return L (render L idx)).

(** template<typename T> struct converter: the conversion capability of a
    native type, its primary template being in converter.hpp. [from_lua]
    reads the value at a stack position or throws a conversion error;
    [to_lua] pushes the representation of a native value and returns how
    many values it pushed. *)
Class converter (T : Type) : Type := {
  from_lua : lua_State_ptr → Z → M T;
  to_lua : lua_State_ptr → T → M Z
}.

(** Modelled from the spec: clg::get_from_lua and clg::push_to_lua of the
    absent headers, the typed read and the push of a native value through
    its converter. *)
Definition get_from_lua {T} `{converter T} (l : lua_State_ptr) (idx : Z) : M T :=
  from_lua l idx.

(** Modelled from the spec: clg::push_to_lua, which pushes through the
    converter and drops the count it returns. *)
Definition push_to_lua {T} `{converter T} (l : lua_State_ptr) (t : T) : M unit :=
  to_lua l t ;; mret tt.

(** ** class ref *)

Record ref : Type := mk_ref {
  mLua : lua_State_ptr;
  mPtr : Z
}.

(** ref() = default, ref(std::nullptr_t) *)
Definition ref_null : ref := {| mLua := None; mPtr := -1 |}.

Definition isNull (this : ref) : bool := bool_decide (mPtr this = -1).

(** explicit operator bool *)
Definition ref_bool (this : ref) : bool := negb (isNull this).

(** operator==(std::nullptr_t) *)
Definition ref_eq_nullptr (this : ref) : bool := bool_decide (mPtr this = -1).

Definition lua (this : ref) : lua_State_ptr := mLua this.

Definition push_value_to_stack (this : ref) : M unit :=
  noexcept (
    assert_ (bool_decide (mLua this ≠ None)) ;;
    lua_rawgeti (mLua this) LUA_REGISTRYINDEX (mPtr this)).

Definition releaseIfNotNull (this : ref) : M unit :=
  if decide (mPtr this ≠ -1) then
    checkThread ;;
    luaL_unref (mLua this) LUA_REGISTRYINDEX (mPtr this)
  else mret tt.

(** incRef reads the member mLua, which the constructors initialise before
    they call it; it is passed here. *)
Definition incRef (mLua : lua_State_ptr) : M Z :=
  isnil ← lua_isnil mLua (-1);
  if (isnil : bool) then
    lua_pop mLua 1 ;;
    mret (-1)
  else
    r ← luaL_ref mLua LUA_REGISTRYINDEX;
    mret r.

(** The private constructor ref(lua_State* state). *)
Definition ref_of_state (state : lua_State_ptr) : M ref :=
  noexcept (
    p ← incRef state;
    mret {| mLua := state; mPtr := p |}).

Definition from_stack (state : lua_State_ptr) : M ref :=
  noexcept (
    top ← lua_gettop state;
    assert_ (bool_decide (top > 0)) ;;
    ref_of_state state).

Definition from_cpp {T} `{converter T} (lua : lua_State_ptr) (t : T) : M ref :=
  push_to_lua lua t ;;
  from_stack lua.

(** The slot a copy gets: the lambda of the copy constructor and of the
    copy assignment. *)
Definition copy_slot (other : ref) : M Z :=
  if decide (mLua other ≠ None) then
    push_value_to_stack other ;;
    checkThread ;;
    incRef (mLua other)
  else mret (-1).

(** ref(const ref& other) *)
Definition ref_copy (other : ref) : M ref :=
  noexcept (
    p ← copy_slot other;
    mret {| mLua := mLua other; mPtr := p |}).

(** ref(ref&& other): the new handle and what is left in [other]. *)
Definition ref_move (other : ref) : ref * ref :=
  ({| mLua := mLua other; mPtr := mPtr other |}, {| mLua := None; mPtr := -1 |}).

(** operator=(ref&& other): the new [this] and what is left in [other]. *)
Definition ref_move_assign (this other : ref) : ref * ref :=
  ({| mLua := mLua other; mPtr := mPtr other |}, {| mLua := None; mPtr := -1 |}).

(** operator=(const ref& other): the new [this]. *)
Definition ref_copy_assign (this other : ref) : M ref :=
  noexcept (
    if decide (mLua this = mLua other ∧ mPtr this = mPtr other) then mret this
    else
      p ← copy_slot other;
      mret {| mLua := mLua other; mPtr := p |}).

(** ~ref() *)
Definition ref_destroy (this : ref) : M unit :=
  releaseIfNotNull this.

(** operator=(std::nullptr_t): the new [this]. *)
Definition ref_assign_null (this : ref) : M ref :=
  noexcept (
    releaseIfNotNull this ;;
    mret {| mLua := mLua this; mPtr := -1 |}).

Definition metatable (this : ref) : M ref :=
  noexcept (
    stack_integrity_check (mLua this) (
      push_value_to_stack this ;;
      has ← lua_getmetatable (mLua this) (-1);
      if (has : bool) then
        value ← from_stack (mLua this);
        lua_pop (mLua this) 1 ;;
        mret value
      else
        lua_pop (mLua this) 1 ;;
        mret ref_null)).

Definition set_metatable {Value} `{converter Value} (this : ref) (meta : Value)
  : M unit :=
  noexcept (
    stack_integrity_check (mLua this) (
      push_value_to_stack this ;;
      push_to_lua (mLua this) meta ;;
      lua_setmetatable (mLua this) (-2) ;;
      lua_pop (mLua this) 1)).

(** The text debug_str gives for a null handle: the three letters between
    double quotes. *)
Definition nil_text : string :=
  String "034"%char ("nil" +:+ String "034"%char EmptyString).

Definition debug_str (this : ref) : M string :=
  noexcept (
    if isNull this then mret nil_text
    else
      stack_integrity_check (mLua this) (
        push_value_to_stack this ;;
        s ← any_to_string (mLua this) (-1);
        lua_pop (mLua this) 1 ;;
        mret s)).

Definition isFunction (this : ref) : M bool :=
  noexcept (
    stack_integrity_check (mLua this) (
      push_value_to_stack this ;;
      value ← lua_isfunction (mLua this) (-1);
      lua_pop (mLua this) 1 ;;
      mret value)).

(** template<typename T> T as() const *)
Definition ref_as {T} `{converter T} (this : ref) : M T :=
  assert_ (negb (isNull this)) ;;
  stack_integrity_check (mLua this) (
    push_value_to_stack this ;;
    try_catch
      (v ← get_from_lua (mLua this) (-1);
       lua_pop (mLua this) 1 ;;
       mret v)
      (λ e,
       lua_pop (mLua this) 1 ;;
       throw e)).

(** template<typename T> std::optional<T> is() const *)
Definition ref_is {T} `{converter T} (this : ref) : M (option T) :=
  assert_ (negb (isNull this)) ;;
  stack_integrity_check (mLua this) (
    push_value_to_stack this ;;
    try_catch
      (v ← get_from_lua (mLua this) (-1);
       lua_pop (mLua this) 1 ;;
       mret (Some v))
      (λ _,
       lua_pop (mLua this) 1 ;;
       mret None)).

(** clg::value value() const: as<clg::value>(), [Value] standing for the
    clg::value of value.hpp. *)
Definition ref_value {Value} `{converter Value} (this : ref) : M Value :=
  noexcept (ref_as this).

(** ** class table_view *)

(** table_view derives from ref and adds no member. *)
Definition table_view : Type := ref.

(** table_view(ref r): ref(std::move(r)) *)
Definition table_view_of_ref (r : ref) : table_view := fst (ref_move r).

(** table_view::value_view: the table it was made from and a key. The key
    is handed to the interpreter as name.data(), read as the text of the
    view. *)
Record value_view : Type := mk_value_view {
  table : table_view;
  name : string
}.

(** value_view::ref() *)
Definition value_view_ref (this : value_view) : M ref :=
  noexcept (
    let L := lua (table this) in
    stack_integrity_check L (
      push_value_to_stack (table this) ;;
      istable ← lua_istable L (-1);
      if negb istable then
        lua_pop L 1 ;;
        mret ref_null
      else
        lua_getfield L (-1) (name this) ;;
        result ← from_stack L;
        lua_pop L 1 ;;
        mret result)).

(** value_view::operator class ref() *)
Definition value_view_to_ref (this : value_view) : M ref :=
  noexcept (value_view_ref this).

(** value_view::operator=(const T& t) *)
Definition value_view_assign {T} `{converter T} (this : value_view) (t : T)
  : M T :=
  noexcept (
    let L := lua (table this) in
    stack_integrity_check L (
      push_value_to_stack (table this) ;;
      lua_pushstring L (name this) ;;
      push_to_lua L t ;;
      lua_settable L (-3) ;;
      lua_pop L 1 ;;
      mret t)).

Definition raw_set {K V} `{converter K} `{converter V}
  (this : table_view) (key : K) (value : V) : M unit :=
  noexcept (
    let L := lua this in
    stack_integrity_check L (
      push_value_to_stack this ;;
      push_to_lua L key ;;
      push_to_lua L value ;;
      lua_rawset L (-3) ;;
      lua_pop L 1)).

(** table_view::operator[] *)
Definition table_view_index (this : table_view) (v : string) : M value_view :=
  assert_ (negb (isNull this)) ;;
  mret {| table := this; name := v |}.

(** ** struct converter<clg::ref> *)

Definition converter_ref_from_lua (l : lua_State_ptr) (n : Z) : M ref :=
  lua_pushvalue l n ;;
  from_stack l.

Definition converter_ref_to_lua (l : lua_State_ptr) (r : ref) : M Z :=
  if isNull r then
    lua_pushnil l ;;
    mret 1
  else
    push_value_to_stack r ;;
    mret 1.

Global Instance converter_ref : converter ref := {|
  from_lua := converter_ref_from_lua;
  to_lua := converter_ref_to_lua
|}.

(** struct converter<clg::table_view>: converter<clg::ref> *)
Definition converter_table_view : converter table_view := converter_ref.

End Interpreter.

(** ** Examples of converters *)

(** Modelled from the spec: the converter of a native integer, which
    converter.hpp defines. The push capability pushes the number; the typed
    read capability yields the number at the position or fails with a
    conversion error when the value there has another type. *)
Definition converter_int_from_lua (l : lua_State_ptr) (n : Z) : M Z :=
  on_state l (λ L,
    match index2value L n with
    | Some (LNumber z) => Return L z
    | _ => Throw L "not a number"
    end).

(** Modelled from the spec: the push of a native integer. *)
Definition converter_int_to_lua (l : lua_State_ptr) (v : Z) : M Z :=
  on_state l (λ L, Return (push (LNumber v) L) 1).

Global Instance converter_int : converter Z := {|
  from_lua := converter_int_from_lua;
  to_lua := converter_int_to_lua
|}.

(** Modelled from the spec: the converter of a native string, which
    converter.hpp defines, in the same manner. *)
Definition converter_string_from_lua (l : lua_State_ptr) (n : Z) : M string :=
  on_state l (λ L,
    match index2value L n with
    | Some (LString s) => Return L s
    | _ => Throw L "not a string"
    end).

(** Modelled from the spec: the push of a native string. *)
Definition converter_string_to_lua (l : lua_State_ptr) (v : string) : M Z :=
  lua_pushstring l v ;; mret 1.

Global Instance converter_string : converter string := {|
  from_lua := converter_string_from_lua;
  to_lua := converter_string_to_lua
|}.

(** ** Vocabulary of the properties *)

(** The handles the constructors build: null, or a positive slot in a
    non-null context. *)
Definition ref_wf (r : ref) : Prop :=
  mPtr r ≠ -1 → 0 < mPtr r ∧ mLua r ≠ None.

(** *** Stack effects *)

(** [effect dr dt m]: whenever [m] hands control back, the stack is [dr a]
    values higher than when it started if it returns [a], and [dt] values
    higher if it throws; and [m] never stops on the stack integrity check. *)
Definition effect {A} (dr : A → Z) (dt : Z) (m : M A) : Prop :=
  ∀ L : lua_State,
    match m L with
    | Return L' a => gettop L' = gettop L + dr a
    | Throw L' _ => gettop L' = gettop L + dt
    | Abort f => f ≠ StackImbalance
    end.

(** A computation that leaves the stack height as it found it on every
    exit. *)
Definition balanced {A} (m : M A) : Prop := effect (λ _, 0) 0 m.

(** *** Converters *)

(** A call that pushes exactly one value and does not throw. *)
Definition pushes_one {A} (m : M A) : Prop :=
  ∀ L : lua_State,
    match m L with
    | Return L' _ => gettop L' = gettop L + 1
    | Throw _ _ => False
    | Abort f => f ≠ StackImbalance
    end.

(** What the handle expects of a conversion capability: a typed read leaves
    the stack height as it found it, whether it succeeds or throws, and a
    push adds one value and does not throw (the functions that push are
    noexcept: an exception there ends the program). *)
Class converter_balanced (T : Type) `{converter T} : Prop := {
  from_lua_balanced : ∀ l idx, balanced (from_lua l idx);
  to_lua_pushes_one : ∀ l t, pushes_one (to_lua l t)
}.

(** A native value whose push capability pushes the Lua value [x] and
    nothing else. *)
Definition pushes {T} `{converter T} (t : T) (x : lua_value) : Prop :=
  ∀ p (L : lua_State), to_lua (Some p) t L = Return (push x L) 1.

(** *** Sequences of operations on handles and views *)

(** The public operations that reach the interpreter through a handle or a
    view: typed read, try-read, metatable query, set-metatable, debug
    string, function test, keyed get, keyed assignment, raw keyed store. [T]
    is the type read, [K] and [V] the types of the keys and values
    written. *)
Inductive handle_op (K V : Type) : Type :=
| OpAs
| OpIs
| OpMetatable
| OpSetMetatable (meta : V)
| OpDebugStr
| OpIsFunction
| OpGet (key : string)
| OpAssign (key : string) (value : V)
| OpRawSet (key : K) (value : V).
Arguments OpAs {K V}.
Arguments OpIs {K V}.
Arguments OpMetatable {K V}.
Arguments OpSetMetatable {K V} meta.
Arguments OpDebugStr {K V}.
Arguments OpIsFunction {K V}.
Arguments OpGet {K V} key.
Arguments OpAssign {K V} key value.
Arguments OpRawSet {K V} key value.

Section Operations.

Variable luaT_callTM :
  nat → list lua_value → lua_State → option (lua_State * lua_value).
Variable render : lua_State → Z → string.
Context {T K V : Type}.
Context `{converter T} `{converter K} `{converter V}.

(** One operation on the handle [h]. What it yields is dropped; a handle
    that is dropped is destroyed. *)
Definition run_op (h : ref) (o : handle_op K V) : M unit :=
  match o with
  | OpAs => (ref_as h : M T) ;; mret ()
  | OpIs => (ref_is h : M (option T)) ;; mret ()
  | OpMetatable => r ← metatable h; ref_destroy r
  | OpSetMetatable meta => set_metatable h meta
  | OpDebugStr => debug_str render h ;; mret ()
  | OpIsFunction => isFunction h ;; mret ()
  | OpGet key =>
      view ← table_view_index h key;
      r ← value_view_ref luaT_callTM view;
      ref_destroy r
  | OpAssign key value =>
      view ← table_view_index h key;
      value_view_assign luaT_callTM view value ;; mret ()
  | OpRawSet key value => raw_set h key value
  end.

(** A sequence of operations, each on a handle of its own; the caller
    catches the conversion error of a failed read and goes on. *)
Fixpoint run_ops (ops : list (ref * handle_op K V)) : M unit :=
  match ops with
  | [] => mret ()
  | (h, o) :: rest =>
      try_catch (run_op h o) (λ _, mret ()) ;;
      run_ops rest
  end.

End Operations.

(** *** Handles a computation builds, exits it takes *)

(** Every handle the computation returns is well formed. *)
Definition builds_wf (m : M ref) : Prop :=
  ∀ (L L' : lua_State) (r : ref), m L = Return L' r → ref_wf r.

(** A computation that never leaves by an exception. *)
Definition no_throw {A} (m : M A) : Prop :=
  ∀ L : lua_State,
    match m L with
    | Throw _ _ => False
    | _ => True
    end.

(** The value lua_setmetatable pops to install the metatable [mo], nil
    standing for none. *)
Definition meta_value (mo : option nat) : lua_value :=
  match mo with
  | Some mt => LTable mt
  | None => LNil
  end.

(** ** Interpreter states and handles of the examples *)

(** A small interpreter state for the examples: a stack and a registry, no
    tables. *)
Definition example_state (s : list lua_value) (reg : gmap Z lua_value)
  : lua_State :=
  {| stack := s; registry := reg; tables := ∅; type_meta := ∅ |}.

(** Modelled from the spec: a render capability for the examples, which
    names the type of the value and shows numbers in full. *)
Definition render_example (L : lua_State) (idx : Z) : string :=
  match index2value L idx with
  | Some (LNumber 42) => "42"
  | Some (LNumber _) => "number"
  | Some (LString s) => s
  | Some LNil => "nil"
  | Some (LBoolean true) => "true"
  | Some (LBoolean false) => "false"
  | Some (LTable _) => "table"
  | Some (LFunction _) => "function"
  | Some (LUserdata _) => "userdata"
  | None => "none"
  end.

(** A handler for the examples: it leaves the interpreter as it is and
    yields nil. *)
Definition callTM_example (f : nat) (args : list lua_value) (L : lua_State)
  : option (lua_State * lua_value) :=
  Some (L, LNil).

(** Two handles of one context, each owning a registered slot. *)
Definition two_slots : lua_State :=
  example_state [] {[ 1 := LNumber 10; 2 := LNumber 20 ]}.

Definition handle_a : ref := {| mLua := Some 1%positive; mPtr := 1 |}.

Definition handle_b : ref := {| mLua := Some 1%positive; mPtr := 2 |}.

(** An interpreter with one table, which has one field, registered under
    slot 1, and a string registered under slot 2. *)
Definition table_state : lua_State :=
  {| stack := [];
     registry := {[ 1 := LTable 0; 2 := LString "x" ]};
     tables :=
       {[ 0%nat := {| tfields := {[ LString "count" := LNumber 1 ]};
                      tmeta := None |} ]};
     type_meta := ∅ |}.

Definition handle_table : ref := {| mLua := Some 1%positive; mPtr := 1 |}.

Definition handle_text : ref := {| mLua := Some 1%positive; mPtr := 2 |}.

Definition example_ops : list (ref * handle_op string Z) :=
  [ (handle_text, OpAs);
    (handle_table, OpGet "count");
    (handle_table, OpAssign "count" 5);
    (handle_table, OpRawSet "k" 7);
    (handle_table, OpMetatable);
    (handle_text, OpDebugStr);
    (handle_text, OpIs) ].


(** * Properties *)

(** ** Running a computation one step at a time *)

Lemma run_bind {A B} (m : M A) (k : A → M B) (L : lua_State) :
  (m ≫= k) L =
  match m L with
  | Return L' a => k a L'
  | Throw L' e => Throw L' e
  | Abort f => Abort f
  end.
Proof. reflexivity. Qed.

Lemma run_ret {A} (a : A) (L : lua_State) : (mret a : M A) L = Return L a.
Proof. reflexivity. Qed.

Lemma run_assert_true (L : lua_State) : assert_ true L = Return L ().
Proof. reflexivity. Qed.

Lemma run_checkThread (L : lua_State) : checkThread L = Return L ().
Proof. reflexivity. Qed.

Lemma run_noexcept {A} (m : M A) (L L' : lua_State) (a : A) :
  m L = Return L' a → noexcept m L = Return L' a.
Proof. unfold noexcept. by intros ->. Qed.

Lemma run_gettop p (L : lua_State) : lua_gettop (Some p) L = Return L (gettop L).
Proof. reflexivity. Qed.

Lemma run_pushnil p (L : lua_State) : lua_pushnil (Some p) L = Return (push LNil L) ().
Proof. reflexivity. Qed.

Lemma run_pushstring p s (L : lua_State) :
  lua_pushstring (Some p) s L = Return (push (LString s) L) ().
Proof. reflexivity. Qed.

Lemma run_rawgeti p n (L : lua_State) :
  lua_rawgeti (Some p) LUA_REGISTRYINDEX n L =
  Return (push (default LNil (registry L !! n)) L) ().
Proof. reflexivity. Qed.

Lemma run_unref p r (L : lua_State) :
  0 ≤ r →
  luaL_unref (Some p) LUA_REGISTRYINDEX r L =
  Return (set_registry (delete r (registry L)) L) ().
Proof. intros H. unfold luaL_unref, on_state. by rewrite decide_True. Qed.

Create Rewrite HintDb run.

Global Hint Rewrite @run_bind @run_ret run_assert_true run_checkThread
  run_gettop run_pushnil run_pushstring run_rawgeti : run.

(** Runs the steps that need no side condition. *)
Ltac run := repeat (autorewrite with run; cbv beta iota).

(** ** The state *)

Lemma set_stack_same (L : lua_State) : set_stack (stack L) L = L.
Proof. by destruct L. Qed.

Lemma set_registry_same (L : lua_State) : set_registry (registry L) L = L.
Proof. by destruct L. Qed.

Lemma set_stack_push v (L : lua_State) : set_stack (stack L) (push v L) = L.
Proof. by destruct L. Qed.

Lemma gettop_push v (L : lua_State) : gettop (push v L) = gettop L + 1.
Proof. unfold gettop, push. simpl. lia. Qed.

Lemma gettop_cons v s (L : lua_State) :
  stack L = v :: s → gettop L = gettop (set_stack s L) + 1.
Proof. unfold gettop. intros ->. simpl. lia. Qed.

Lemma gettop_nonempty v s (L : lua_State) : stack L = v :: s → gettop L > 0.
Proof. unfold gettop. intros ->. simpl. lia. Qed.

Lemma index2value_top v s (L : lua_State) :
  stack L = v :: s → index2value L (-1) = Some v.
Proof. unfold index2value. simpl. by intros ->. Qed.

(** ** The registry allocator *)

Lemma fresh_ref_bound (reg : gmap Z lua_value) :
  0 ≤ map_fold (λ k _ acc, Z.max k acc) 0 reg ∧
  ∀ k, is_Some (reg !! k) → k ≤ map_fold (λ k _ acc, Z.max k acc) 0 reg.
Proof.
  apply (map_fold_weak_ind
           (λ b (m : gmap Z lua_value), 0 ≤ b ∧ ∀ k, is_Some (m !! k) → k ≤ b)).
  - split; [lia|]. intros k [x Hx]. by rewrite lookup_empty in Hx.
  - intros i x m r _ [Hr IH]. split; [lia|].
    intros k Hk. destruct (decide (i = k)) as [->|Hne]; [lia|].
    rewrite lookup_insert_ne in Hk by done. specialize (IH k Hk). lia.
Qed.

Lemma fresh_ref_positive (reg : gmap Z lua_value) : 0 < fresh_ref reg.
Proof. unfold fresh_ref. pose proof (fresh_ref_bound reg) as [H _]. lia. Qed.

Lemma fresh_ref_unused (reg : gmap Z lua_value) : reg !! fresh_ref reg = None.
Proof.
  destruct (reg !! fresh_ref reg) as [x|] eqn:E; [|done].
  pose proof (fresh_ref_bound reg) as [_ H].
  specialize (H (fresh_ref reg) (ex_intro _ x E)). unfold fresh_ref in H. lia.
Qed.

(** ** Primitives on a stack whose top is known *)

Lemma run_pop_one p v s (L : lua_State) :
  stack L = v :: s → lua_pop (Some p) 1 L = Return (set_stack s L) ().
Proof.
  intros H. unfold lua_pop, on_state, gettop. rewrite H. simpl length.
  rewrite decide_True by lia. reflexivity.
Qed.

Lemma run_pop_push p v (L : lua_State) :
  lua_pop (Some p) 1 (push v L) = Return L ().
Proof.
  rewrite (run_pop_one p v (stack L)) by done.
  by rewrite set_stack_push.
Qed.

Lemma run_isnil_top p v s (L : lua_State) :
  stack L = v :: s →
  lua_isnil (Some p) (-1) L = Return L (bool_decide (v = LNil)).
Proof.
  intros H. unfold lua_isnil, on_state.
  rewrite (index2value_top v s) by done. by destruct v.
Qed.

Lemma run_ref_value p v s (L : lua_State) :
  stack L = v :: s → v ≠ LNil →
  luaL_ref (Some p) LUA_REGISTRYINDEX L =
  Return (set_registry (<[fresh_ref (registry L) := v]> (registry L)) (set_stack s L))
         (fresh_ref (registry L)).
Proof. intros H Hv. unfold luaL_ref, on_state. rewrite H. by destruct v. Qed.

(** ** incRef and from_stack *)

Lemma incRef_nil p s (L : lua_State) :
  stack L = LNil :: s → incRef (Some p) L = Return (set_stack s L) (-1).
Proof.
  intros H. unfold incRef. run.
  rewrite (run_isnil_top p LNil s), bool_decide_true by done. run.
  rewrite (run_pop_one p LNil s) by done. by run.
Qed.

Lemma incRef_value p v s (L : lua_State) :
  stack L = v :: s → v ≠ LNil →
  incRef (Some p) L =
  Return (set_registry (<[fresh_ref (registry L) := v]> (registry L)) (set_stack s L))
         (fresh_ref (registry L)).
Proof.
  intros H Hv. unfold incRef. run.
  rewrite (run_isnil_top p v s), bool_decide_false by done. run.
  rewrite (run_ref_value p v s) by done. by run.
Qed.

Lemma from_stack_nil p s (L : lua_State) :
  stack L = LNil :: s →
  from_stack (Some p) L = Return (set_stack s L) {| mLua := Some p; mPtr := -1 |}.
Proof.
  intros H. unfold from_stack. apply run_noexcept. run.
  rewrite bool_decide_true by by apply (gettop_nonempty LNil s).
  run. unfold ref_of_state.
  erewrite run_noexcept; [reflexivity|]. run.
  rewrite (incRef_nil p s) by done. by run.
Qed.

Lemma from_stack_value p v s (L : lua_State) :
  stack L = v :: s → v ≠ LNil →
  from_stack (Some p) L =
  Return (set_registry (<[fresh_ref (registry L) := v]> (registry L)) (set_stack s L))
         {| mLua := Some p; mPtr := fresh_ref (registry L) |}.
Proof.
  intros H Hv. unfold from_stack. apply run_noexcept. run.
  rewrite bool_decide_true by by apply (gettop_nonempty v s).
  run. unfold ref_of_state.
  erewrite run_noexcept; [reflexivity|]. run.
  rewrite (incRef_value p v s) by done. by run.
Qed.

(** ** Handles *)

Lemma stack_integrity_check_return {A} p (body : M A) (L L' : lua_State) (a : A) :
  body L = Return L' a → gettop L' = gettop L →
  stack_integrity_check (Some p) body L = Return L' a.
Proof.
  intros Hb Ht. unfold stack_integrity_check. run. rewrite Hb.
  by rewrite decide_True.
Qed.

Lemma push_value_to_stack_run p k (L : lua_State) :
  push_value_to_stack {| mLua := Some p; mPtr := k |} L =
  Return (push (default LNil (registry L !! k)) L) ().
Proof. unfold push_value_to_stack. apply run_noexcept. cbn [mPtr mLua]. by run. Qed.

Lemma releaseIfNotNull_null l (L : lua_State) :
  releaseIfNotNull {| mLua := l; mPtr := -1 |} L = Return L ().
Proof. reflexivity. Qed.

Lemma releaseIfNotNull_slot p k (L : lua_State) :
  0 < k →
  releaseIfNotNull {| mLua := Some p; mPtr := k |} L =
  Return (set_registry (delete k (registry L)) L) ().
Proof.
  intros Hk. unfold releaseIfNotNull. cbn [mPtr mLua].
  rewrite decide_True by lia. run.
  by rewrite run_unref by lia.
Qed.

(** What from_stack and the copy constructor build is well formed. *)
Lemma from_stack_wf p (L L' : lua_State) (r : ref) :
  from_stack (Some p) L = Return L' r → ref_wf r.
Proof.
  destruct (stack L) as [|v s] eqn:Hs.
  - unfold from_stack, noexcept. run. unfold gettop. rewrite Hs.
    rewrite bool_decide_false by (simpl; lia). done.
  - destruct (decide (v = LNil)) as [->|Hv].
    + rewrite (from_stack_nil p s) by done. intros [= _ <-]. by intros H.
    + rewrite (from_stack_value p v s) by done. intros [= _ <-] _.
      cbn [mPtr mLua]. split; [apply fresh_ref_positive|done].
Qed.

Lemma ref_copy_wf (h : ref) (L L' : lua_State) (c : ref) :
  ref_copy h L = Return L' c → ref_wf c.
Proof.
  destruct h as [[p|] k]; unfold ref_copy, noexcept, copy_slot; cbn [mLua mPtr].
  - rewrite decide_True by done. run. rewrite push_value_to_stack_run.
    cbv beta iota. run.
    destruct (decide (default LNil (registry L !! k) = LNil)) as [Hnil|Hv].
    + rewrite (incRef_nil p (stack L)) by by rewrite Hnil.
      intros [= _ <-]. by intros H.
    + rewrite (incRef_value p (default LNil (registry L !! k)) (stack L)) by done.
      intros [= _ <-] _. cbn [mPtr mLua]. split; [apply fresh_ref_positive|done].
  - rewrite decide_False by (intros H; by apply H). run.
    intros [= _ <-]. by intros H.
Qed.

(** C1, as the specification states it, fails: capturing the number on top of
    a one-element stack leaves the stack empty. *)
Lemma from_stack_height_changes :
  ¬ (∀ p (L L' : lua_State) (r : ref),
       stack L ≠ [] → from_stack (Some p) L = Return L' r →
       gettop L' = gettop L).
Proof.
  intros H.
  specialize (H 1%positive (example_state [LNumber 42] ∅)
                (example_state [] {[ 1 := LNumber 42 ]})
                {| mLua := Some 1%positive; mPtr := 1 |}).
  discriminate H; [discriminate | reflexivity].
Qed.

(** C1, amended: on a non-empty stack from_stack returns a handle and
    consumes the captured value. On return the stack is the entry stack
    without its top, one value lower, and a captured value that is not nil
    is held by the registry under the slot of the new handle. *)
Theorem from_stack_consumes_top p (L : lua_State) :
  stack L ≠ [] →
  ∃ (L' : lua_State) (r : ref),
    from_stack (Some p) L = Return L' r ∧
    stack L' = tail (stack L) ∧
    gettop L' = gettop L - 1 ∧
    ∀ v, head (stack L) = Some v → v ≠ LNil →
         isNull r = false ∧ registry L !! mPtr r = None ∧
         registry L' = <[mPtr r := v]> (registry L).
Proof.
  intros Hne. destruct (stack L) as [|v s] eqn:Hs; [done|].
  destruct (decide (v = LNil)) as [->|Hv].
  - eexists _, _. split; [by apply from_stack_nil|].
    split; [done|]. split; [rewrite (gettop_cons LNil s L Hs); lia|].
    intros v [= <-]. done.
  - eexists _, _. split; [by apply from_stack_value|].
    split; [done|]. split; [rewrite (gettop_cons v s L Hs); unfold gettop; simpl; lia|].
    intros v' [= <-] _. simpl. split; [|split; [apply fresh_ref_unused|done]].
    unfold isNull. simpl. apply bool_decide_false.
    pose proof (fresh_ref_positive (registry L)). lia.
Qed.

Lemma from_stack_consumes_top_witness :
  ∃ (L' : lua_State) (r : ref),
    from_stack (Some 1%positive) (example_state [LNumber 42; LNil] ∅) = Return L' r ∧
    stack L' = [LNil] ∧
    gettop L' = 1 ∧
    ∀ v, Some (LNumber 42) = Some v → v ≠ LNil →
         isNull r = false ∧ (∅ : gmap Z lua_value) !! mPtr r = None ∧
         registry L' = <[mPtr r := v]> ∅.
Proof.
  apply (from_stack_consumes_top 1%positive (example_state [LNumber 42; LNil] ∅)).
  discriminate.
Defined.

(** C5: when the top of the stack is nil, from_stack returns a null handle
    and registers nothing: the registry is the one on entry. *)
Theorem from_stack_nil_is_null p (L : lua_State) :
  head (stack L) = Some LNil →
  ∃ (L' : lua_State) (r : ref),
    from_stack (Some p) L = Return L' r ∧
    isNull r = true ∧
    registry L' = registry L.
Proof.
  intros H. destruct (stack L) as [|v s] eqn:Hs; [done|].
  injection H as ->.
  eexists _, _. split; [by apply from_stack_nil|]. done.
Qed.

Lemma from_stack_nil_is_null_witness :
  ∃ (L' : lua_State) (r : ref),
    from_stack (Some 1%positive) (example_state [LNil] {[ 1 := LNumber 7 ]})
      = Return L' r ∧
    isNull r = true ∧
    registry L' = {[ 1 := LNumber 7 ]}.
Proof.
  exact (from_stack_nil_is_null 1%positive
           (example_state [LNil] {[ 1 := LNumber 7 ]}) eq_refl).
Defined.

(** C3, as the specification states it, fails: after the assignment of null
    a handle that owned a slot still names its context, so it is not the
    canonical null handle. *)
Lemma ref_assign_null_keeps_context :
  ¬ (∀ (h h' : ref) (L L' : lua_State),
       ref_wf h → ref_assign_null h L = Return L' h' →
       isNull h' = true ∧ mLua h' = None).
Proof.
  intros H.
  destruct (H {| mLua := Some 1%positive; mPtr := 1 |}
              {| mLua := Some 1%positive; mPtr := -1 |}
              (example_state [] {[ 1 := LNumber 42 ]})
              (example_state [] ∅)) as [_ Hctx].
  - intros _. simpl. split; [lia | discriminate].
  - reflexivity.
  - discriminate Hctx.
Qed.

(** C3, amended: assigning null to a handle releases its registry slot if it
    has one, pushes nothing (the stack is untouched) and leaves the handle
    with the sentinel slot, so that isNull() is true afterwards. *)
Theorem ref_assign_null_releases (h : ref) (L : lua_State) :
  ref_wf h →
  ∃ (L' : lua_State) (h' : ref),
    ref_assign_null h L = Return L' h' ∧
    isNull h' = true ∧
    mPtr h' = -1 ∧
    stack L' = stack L ∧
    registry L' = (if isNull h then registry L else delete (mPtr h) (registry L)) ∧
    registry L' !! mPtr h = (if isNull h then registry L !! mPtr h else None).
Proof.
  intros Hwf. destruct h as [l k]. unfold ref_wf in Hwf. cbn [mPtr mLua] in Hwf.
  unfold ref_assign_null, isNull. cbn [mPtr mLua].
  destruct (decide (k = -1)) as [->|Hk].
  - eexists _, _. split.
    + apply run_noexcept. run. rewrite ?releaseIfNotNull_null. by run.
    + by rewrite !bool_decide_true by done.
  - destruct (Hwf Hk) as [Hpos Hl]. destruct l as [p|]; [|done].
    eexists _, _. split.
    + apply run_noexcept. run. rewrite releaseIfNotNull_slot by done. by run.
    + cbn [mPtr mLua]. rewrite (bool_decide_false (k = -1)) by done.
      cbn [registry set_registry stack]. by rewrite lookup_delete_eq.
Qed.

Lemma ref_assign_null_releases_witness :
  ∃ (L' : lua_State) (h' : ref),
    ref_assign_null {| mLua := Some 1%positive; mPtr := 1 |}
      (example_state [LNumber 5] {[ 1 := LNumber 42 ]}) = Return L' h' ∧
    isNull h' = true ∧
    mPtr h' = -1 ∧
    stack L' = [LNumber 5] ∧
    registry L' = delete 1 {[ 1 := LNumber 42 ]} ∧
    registry L' !! 1 = None.
Proof.
  assert (Hwf : ref_wf {| mLua := Some 1%positive; mPtr := 1 |}).
  { intros _. simpl. split; [lia | discriminate]. }
  exact (ref_assign_null_releases {| mLua := Some 1%positive; mPtr := 1 |}
           (example_state [LNumber 5] {[ 1 := LNumber 42 ]}) Hwf).
Defined.

(** ** converter<clg::ref> *)

Lemma run_pushvalue p idx v (L : lua_State) :
  index2value L idx = Some v →
  lua_pushvalue (Some p) idx L = Return (push v L) ().
Proof. intros H. unfold lua_pushvalue, on_state. by rewrite H. Qed.

Lemma converter_ref_to_lua_null p (r : ref) (L : lua_State) :
  isNull r = true →
  converter_ref_to_lua (Some p) r L = Return (push LNil L) 1.
Proof. intros H. unfold converter_ref_to_lua. rewrite H. by run. Qed.

Lemma converter_ref_from_lua_nil p idx (L : lua_State) :
  index2value L idx = Some LNil →
  converter_ref_from_lua (Some p) idx L =
  Return L {| mLua := Some p; mPtr := -1 |}.
Proof.
  intros H. unfold converter_ref_from_lua. run.
  rewrite (run_pushvalue p idx LNil) by done. run.
  rewrite (from_stack_nil p (stack L)) by done.
  by rewrite set_stack_push.
Qed.

(** C10: the converter pushes exactly one value, nil, for a null handle;
    it reads a stack position that holds nil as a null handle and leaves the
    stack as it found it; so a null handle pushed and read back from the top
    of the stack is a null handle again. *)
Theorem converter_ref_null_round_trip p (r : ref) (L : lua_State) :
  isNull r = true →
  to_lua (Some p) r L = Return (push LNil L) 1 ∧
  (∀ (L1 : lua_State) idx,
     index2value L1 idx = Some LNil →
     ∃ r', from_lua (Some p) idx L1 = Return L1 r' ∧ isNull r' = true) ∧
  ∃ r', (to_lua (Some p) r ≫= λ _, from_lua (Some p) (-1)) L
          = Return (push LNil L) r' ∧
        isNull r' = true.
Proof.
  intros Hnull. cbn [to_lua from_lua converter_ref].
  split; [by apply converter_ref_to_lua_null|]. split.
  - intros L1 idx H. eexists. split; [by apply converter_ref_from_lua_nil|done].
  - exists {| mLua := Some p; mPtr := -1 |}. split; [|reflexivity]. run.
    rewrite converter_ref_to_lua_null by done. cbv beta iota.
    by apply converter_ref_from_lua_nil.
Qed.

Lemma converter_ref_null_round_trip_witness :
  to_lua (Some 1%positive) ref_null (example_state [LNumber 3] ∅)
    = Return (push LNil (example_state [LNumber 3] ∅)) 1 ∧
  (∀ (L1 : lua_State) idx,
     index2value L1 idx = Some LNil →
     ∃ r', from_lua (Some 1%positive) idx L1 = Return L1 r' ∧ isNull r' = true) ∧
  ∃ r', (to_lua (Some 1%positive) ref_null ≫= λ _, from_lua (Some 1%positive) (-1))
          (example_state [LNumber 3] ∅)
          = Return (push LNil (example_state [LNumber 3] ∅)) r' ∧
        isNull r' = true.
Proof.
  exact (converter_ref_null_round_trip 1%positive ref_null
           (example_state [LNumber 3] ∅) eq_refl).
Defined.

(** ** debug_str *)

Section Render.

Variable render : lua_State → Z → string.

Lemma debug_str_null (h : ref) (L : lua_State) :
  isNull h = true → debug_str render h L = Return L nil_text.
Proof. intros H. unfold debug_str. apply run_noexcept. by rewrite H. Qed.

Lemma debug_str_value p k (L : lua_State) :
  k ≠ -1 →
  debug_str render {| mLua := Some p; mPtr := k |} L =
  Return L (render (push (default LNil (registry L !! k)) L) (-1)).
Proof.
  intros Hk. unfold debug_str, isNull. cbn [mPtr mLua].
  rewrite bool_decide_false by done. apply run_noexcept.
  apply stack_integrity_check_return; [|done]. run.
  rewrite push_value_to_stack_run. cbv beta iota.
  unfold any_to_string, on_state. run.
  rewrite run_pop_push. by run.
Qed.

(** C6: debug_str always returns, with the interpreter state it was called
    in. For a null handle the text is the placeholder [nil_text] and the
    interpreter is not consulted; otherwise the text is what the render
    capability gives for the referenced value pushed on top of the stack,
    which is popped again. *)
Theorem debug_str_total (h : ref) (L : lua_State) :
  ref_wf h →
  debug_str render h L =
  Return L (if isNull h then nil_text
            else render (push (default LNil (registry L !! mPtr h)) L) (-1)).
Proof.
  intros Hwf. destruct (isNull h) eqn:Hnull; [by apply debug_str_null|].
  apply bool_decide_eq_false in Hnull. destruct (Hwf Hnull) as [_ Hl].
  destruct h as [[p|] k]; [|done]. by apply debug_str_value.
Qed.

End Render.

(** The placeholder is the word nil between double quotes, as the string
    literal of debug_str writes it. *)
Example nil_text_chars :
  String.length nil_text = 5%nat ∧
  String.get 0 nil_text = Some "034"%char ∧
  String.substring 1 3 nil_text = "nil" ∧
  String.get 4 nil_text = Some "034"%char.
Proof. repeat split. Qed.

Lemma debug_str_total_witness :
  debug_str render_example {| mLua := Some 1%positive; mPtr := 1 |}
    (example_state [] {[ 1 := LNumber 42 ]}) =
  Return (example_state [] {[ 1 := LNumber 42 ]}) "42" ∧
  debug_str render_example ref_null (example_state [] ∅) =
  Return (example_state [] ∅) nil_text.
Proof.
  assert (Hwf : ref_wf {| mLua := Some 1%positive; mPtr := 1 |}).
  { intros _. simpl. split; [lia | discriminate]. }
  assert (Hnull : ref_wf ref_null).
  { intros H. by destruct H. }
  split.
  - exact (debug_str_total render_example {| mLua := Some 1%positive; mPtr := 1 |}
             (example_state [] {[ 1 := LNumber 42 ]}) Hwf).
  - exact (debug_str_total render_example ref_null (example_state [] ∅) Hnull).
Defined.

(** ** Copies *)

Lemma copy_slot_value p k v (L : lua_State) :
  registry L !! k = Some v → v ≠ LNil →
  copy_slot {| mLua := Some p; mPtr := k |} L =
  Return (set_registry (<[fresh_ref (registry L) := v]> (registry L)) L)
         (fresh_ref (registry L)).
Proof.
  intros Hk Hv. unfold copy_slot. cbn [mPtr mLua].
  rewrite decide_True by done. run.
  rewrite push_value_to_stack_run, Hk. cbv beta iota. run.
  rewrite (incRef_value p v (stack L)) by done.
  cbn [default registry push set_stack]. by rewrite set_stack_push.
Qed.

Lemma ref_copy_value p k v (L : lua_State) :
  registry L !! k = Some v → v ≠ LNil →
  ref_copy {| mLua := Some p; mPtr := k |} L =
  Return (set_registry (<[fresh_ref (registry L) := v]> (registry L)) L)
         {| mLua := Some p; mPtr := fresh_ref (registry L) |}.
Proof.
  intros Hk Hv. unfold ref_copy. apply run_noexcept. run.
  rewrite (copy_slot_value p k v) by done. by run.
Qed.

Section Copy.

Variable render : lua_State → Z → string.

(** C9: copying a handle that owns a slot registers the same value under a
    fresh slot of its own, next to the original one and with the stack as it
    was; destroying the copy releases that slot only. The original is still
    non-null, its slot still holds the value, and its debug string is what
    it was before the copy existed. *)
Theorem copy_then_destroy (h : ref) p v (L : lua_State) :
  mLua h = Some p → isNull h = false →
  registry L !! mPtr h = Some v → v ≠ LNil →
  ∃ (L1 : lua_State) (c : ref),
    ref_copy h L = Return L1 c ∧
    isNull c = false ∧
    mPtr c ≠ mPtr h ∧
    registry L !! mPtr c = None ∧
    registry L1 !! mPtr c = Some v ∧
    registry L1 !! mPtr h = Some v ∧
    stack L1 = stack L ∧
    ∃ L2 : lua_State,
      ref_destroy c L1 = Return L2 () ∧
      registry L2 !! mPtr c = None ∧
      registry L2 !! mPtr h = Some v ∧
      isNull h = false ∧
      debug_str render h L2 = debug_str render h L.
Proof.
  intros Hl Hnull Hk Hv. destruct h as [l k]. cbn [mLua mPtr] in *. subst l.
  pose proof (fresh_ref_positive (registry L)) as Hpos.
  pose proof (fresh_ref_unused (registry L)) as Hfresh.
  assert (Hne : fresh_ref (registry L) ≠ k) by congruence.
  eexists _, _. split; [by apply (ref_copy_value p k v)|].
  unfold isNull. cbn [mPtr mLua registry set_registry stack].
  split; [apply bool_decide_false; lia|].
  split; [done|]. split; [done|].
  split; [by rewrite lookup_insert_eq|].
  split; [by rewrite lookup_insert_ne|].
  split; [done|].
  exists L. unfold ref_destroy.
  rewrite releaseIfNotNull_slot by done.
  cbn [registry set_registry stack tables type_meta].
  rewrite delete_insert_id by done.
  split; [by destruct L|]. done.
Qed.

End Copy.

Lemma copy_then_destroy_witness :
  ∃ (L1 : lua_State) (c : ref),
    ref_copy {| mLua := Some 1%positive; mPtr := 1 |}
      (example_state [] {[ 1 := LNumber 42 ]}) = Return L1 c ∧
    isNull c = false ∧
    mPtr c ≠ 1 ∧
    ({[ 1 := LNumber 42 ]} : gmap Z lua_value) !! mPtr c = None ∧
    registry L1 !! mPtr c = Some (LNumber 42) ∧
    registry L1 !! 1 = Some (LNumber 42) ∧
    stack L1 = [] ∧
    ∃ L2 : lua_State,
      ref_destroy c L1 = Return L2 () ∧
      registry L2 !! mPtr c = None ∧
      registry L2 !! 1 = Some (LNumber 42) ∧
      isNull {| mLua := Some 1%positive; mPtr := 1 |} = false ∧
      debug_str render_example {| mLua := Some 1%positive; mPtr := 1 |} L2 =
      debug_str render_example {| mLua := Some 1%positive; mPtr := 1 |}
        (example_state [] {[ 1 := LNumber 42 ]}).
Proof.
  assert (Hv : LNumber 42 ≠ LNil) by discriminate.
  exact (copy_then_destroy render_example {| mLua := Some 1%positive; mPtr := 1 |}
           1%positive (LNumber 42) (example_state [] {[ 1 := LNumber 42 ]})
           eq_refl eq_refl eq_refl Hv).
Defined.

(** ** Assignment over a handle that owns a slot *)

(** C2, at the failing input: [a = std::move(b)] and [a = b] overwrite the
    slot of a without releasing it. After the assignment and the
    destruction of every handle, slot 1, which a owned, is still registered:
    it was released by nobody. *)
Theorem assignment_leaks_previous_slot :
  (let '(a', b') := ref_move_assign handle_a handle_b in
   (ref_destroy a' ≫= λ _, ref_destroy b') two_slots)
  = Return (example_state [] {[ 1 := LNumber 10 ]}) () ∧
  (ref_copy_assign handle_a handle_b ≫= λ a',
   ref_destroy a' ≫= λ _, ref_destroy handle_b) two_slots
  = Return (example_state [] {[ 1 := LNumber 10 ]}) ().
Proof. split; vm_compute; reflexivity. Qed.

(** The defect does not depend on the input: whatever is assigned, the slot
    the handle owned before a copy assignment is still registered after
    it, and the new handle no longer names it unless the assignment was a
    self-assignment. *)
Lemma ref_copy_assign_keeps_slot (this other r : ref) (L L' : lua_State) v :
  ref_copy_assign this other L = Return L' r →
  registry L !! mPtr this = Some v →
  registry L' !! mPtr this = Some v.
Proof.
  intros Hrun Hv. unfold ref_copy_assign, noexcept in Hrun.
  case_decide as Hsame; [by injection Hrun as <- _|].
  revert Hrun. run. unfold copy_slot.
  destruct other as [[p|] k]; cbn [mLua mPtr].
  - rewrite decide_True by done. run. rewrite push_value_to_stack_run.
    cbv beta iota. run.
    destruct (decide (default LNil (registry L !! k) = LNil)) as [Hnil|Hnn].
    + rewrite (incRef_nil p (stack L)) by by rewrite Hnil.
      by intros [= <- _].
    + rewrite (incRef_value p (default LNil (registry L !! k)) (stack L)) by done.
      intros [= <- _]. cbn [registry set_registry set_stack push].
      rewrite lookup_insert_ne; [done|].
      intros Heq. pose proof (fresh_ref_unused (registry L)) as Hfresh.
      rewrite Heq in Hfresh. congruence.
  - rewrite decide_False by (intros H; by apply H). run. by intros [= <- _].
Qed.

(** ** Stack effects *)

Lemma effect_weaken {A} (d' d : A → Z) dt (m : M A) :
  effect d' dt m → (∀ a, d a = d' a) → effect d dt m.
Proof.
  intros H Hd L. specialize (H L). destruct (m L); [|done..].
  by rewrite Hd.
Qed.

Lemma effect_ret {A} (d : A → Z) dt (a : A) : d a = 0 → effect d dt (mret a).
Proof. intros H L. rewrite run_ret, H. lia. Qed.

Lemma effect_bind {A B} (d1 : A → Z) (d : B → Z) dt (m : M A) (k : A → M B) :
  effect d1 dt m →
  (∀ a, effect (λ b, d b - d1 a) (dt - d1 a) (k a)) →
  effect d dt (m ≫= k).
Proof.
  intros Hm Hk L. rewrite run_bind. specialize (Hm L).
  destruct (m L) as [L' a| |]; [|done..].
  specialize (Hk a L'). destruct (k a L'); [lia|lia|done].
Qed.

Lemma effect_throw {A} (d : A → Z) dt e : dt = 0 → effect d dt (throw e).
Proof. intros -> L. unfold throw. lia. Qed.

Lemma effect_abort {A} (d : A → Z) dt f : f ≠ StackImbalance → effect d dt (abort f).
Proof. by intros H L. Qed.

Lemma effect_try_catch {A} (d : A → Z) dt1 dt (body : M A) handler :
  effect d dt1 body →
  (∀ e, effect (λ a, d a - dt1) (dt - dt1) (handler e)) →
  effect d dt (try_catch body handler).
Proof.
  intros Hb Hh L. unfold try_catch. specialize (Hb L).
  destruct (body L) as [|L' e|]; [done| |done].
  specialize (Hh e L'). destruct (handler e L'); [lia|lia|done].
Qed.

Lemma effect_noexcept {A} (d : A → Z) dt (m : M A) :
  effect d 0 m → effect d dt (noexcept m).
Proof.
  intros H L. unfold noexcept. specialize (H L). by destruct (m L).
Qed.

Lemma effect_on_state {A} (d : A → Z) dt l (m : M A) :
  effect d dt m → effect d dt (on_state l m).
Proof. intros H. destruct l; [done|]. by apply effect_abort. Qed.

Lemma effect_assert dt b : effect (λ _, 0) dt (assert_ b).
Proof. destruct b; [by apply effect_ret|by apply effect_abort]. Qed.

Lemma effect_guard {A} (d : A → Z) dt l (body : M A) :
  (∀ a, d a = 0) → dt = 0 → balanced body →
  effect d dt (stack_integrity_check l body).
Proof.
  intros Hd -> Hb L. unfold stack_integrity_check. rewrite run_bind.
  destruct l as [p|]; [|done]. rewrite run_gettop. specialize (Hb L).
  destruct (body L) as [L' a|L' e|]; [| |done].
  - rewrite decide_True by lia. rewrite Hd. lia.
  - rewrite decide_True by lia. lia.
Qed.

(** *** The primitives *)

Lemma effect_gettop l dt : effect (λ _, 0) dt (lua_gettop l).
Proof. apply effect_on_state. intros L. lia. Qed.

Lemma effect_pop l n dt : effect (λ _, - n) dt (lua_pop l n).
Proof.
  apply effect_on_state. intros L. case_decide; [|done].
  unfold gettop in *. cbn [stack set_stack]. rewrite length_drop. lia.
Qed.

Lemma effect_pushnil l dt : effect (λ _, 1) dt (lua_pushnil l).
Proof. apply effect_on_state. intros L. apply gettop_push. Qed.

Lemma effect_pushstring l s dt : effect (λ _, 1) dt (lua_pushstring l s).
Proof. apply effect_on_state. intros L. apply gettop_push. Qed.

Lemma effect_pushvalue l idx dt : effect (λ _, 1) dt (lua_pushvalue l idx).
Proof.
  apply effect_on_state. intros L.
  destruct (index2value L idx); [apply gettop_push|done].
Qed.

Lemma effect_isnil l idx dt : effect (λ _, 0) dt (lua_isnil l idx).
Proof. apply effect_on_state. intros L. lia. Qed.

Lemma effect_istable l idx dt : effect (λ _, 0) dt (lua_istable l idx).
Proof. apply effect_on_state. intros L. lia. Qed.

Lemma effect_isfunction l idx dt : effect (λ _, 0) dt (lua_isfunction l idx).
Proof. apply effect_on_state. intros L. lia. Qed.

Lemma effect_rawgeti l t n dt : effect (λ _, 1) dt (lua_rawgeti l t n).
Proof. apply effect_on_state. intros L. apply gettop_push. Qed.

Lemma effect_ref l t dt : effect (λ _, -1) dt (luaL_ref l t).
Proof.
  apply effect_on_state. intros L.
  destruct (stack L) as [|v s] eqn:Hs; [done|].
  rewrite (gettop_cons v s L Hs).
  destruct v; unfold gettop; cbn [stack set_stack set_registry]; lia.
Qed.

Lemma effect_unref l t r dt : effect (λ _, 0) dt (luaL_unref l t r).
Proof. apply effect_on_state. intros L. case_decide; unfold gettop; simpl; lia. Qed.

Lemma effect_getmetatable l idx dt :
  effect (λ has : bool, if has then 1 else 0) dt (lua_getmetatable l idx).
Proof.
  apply effect_on_state. intros L. destruct (index2value L idx) as [v|]; [|done].
  destruct (metatable_of L v); [apply gettop_push|lia].
Qed.

Lemma stack_set_metatable_of v mt (L : lua_State) :
  stack (set_metatable_of v mt L) = stack L.
Proof.
  unfold set_metatable_of.
  destruct v, mt; try done; by destruct (tables L !! a).
Qed.

Lemma effect_setmetatable l idx dt : effect (λ _, -1) dt (lua_setmetatable l idx).
Proof.
  apply effect_on_state. intros L. destruct (index2value L idx); [|done].
  destruct (stack L) as [|v s] eqn:Hs; [done|].
  rewrite (gettop_cons v s L Hs).
  destruct v; try done; unfold gettop; rewrite stack_set_metatable_of;
    cbn [stack set_stack]; lia.
Qed.

Lemma effect_checkThread dt : effect (λ _, 0) dt checkThread.
Proof. by apply effect_ret. Qed.

Create HintDb effect discriminated.

Global Hint Resolve effect_gettop effect_pop effect_pushnil effect_pushstring
  effect_pushvalue effect_isnil effect_istable effect_isfunction effect_rawgeti
  effect_ref effect_unref effect_getmetatable effect_setmetatable
  effect_checkThread effect_assert : effect.

(** Closes a side condition on heights. *)
Ltac effect_side := intros; cbv beta; first [reflexivity | lia].

(** Closes the goal for one call whose effect is a hint. *)
Ltac effect_leaf :=
  eapply effect_weaken; [solve [eauto with effect] | effect_side].

(** Walks through a body, following its syntax: the wrappers, binds,
    branches and returns; a call is closed by its hint. *)
Ltac effect_step :=
  lazymatch goal with
  | |- effect _ _ (noexcept _) => apply effect_noexcept
  | |- effect _ _ (stack_integrity_check _ _) =>
      apply effect_guard; [effect_side | effect_side | unfold balanced]
  | |- effect _ _ (try_catch _ _) => eapply effect_try_catch; [|intros ?]
  | |- effect _ _ (mbind _ _) => eapply effect_bind; [|intros ?]
  | |- effect _ _ (mret _) => apply effect_ret; effect_side
  | |- effect _ _ (throw _) => apply effect_throw; effect_side
  | |- effect _ _ (abort _) => apply effect_abort; discriminate
  | |- effect _ _ (if ?b then _ else _) => destruct b
  | |- effect _ _ _ => effect_leaf
  end.

Ltac effect_auto := repeat effect_step.

(** *** The handle *)

Lemma effect_push_value_to_stack (this : ref) dt :
  effect (λ _, 1) dt (push_value_to_stack this).
Proof. unfold push_value_to_stack. effect_auto. Qed.

Lemma effect_releaseIfNotNull (this : ref) dt :
  effect (λ _, 0) dt (releaseIfNotNull this).
Proof. unfold releaseIfNotNull. effect_auto. Qed.

Lemma effect_incRef l dt : effect (λ _, -1) dt (incRef l).
Proof. unfold incRef. effect_auto. Qed.

Global Hint Resolve effect_push_value_to_stack effect_releaseIfNotNull
  effect_incRef : effect.

Lemma effect_from_stack l dt : effect (λ _, -1) dt (from_stack l).
Proof. unfold from_stack, ref_of_state. effect_auto. Qed.

Global Hint Resolve effect_from_stack : effect.

Lemma effect_copy_slot (other : ref) dt : effect (λ _, 0) dt (copy_slot other).
Proof. unfold copy_slot. effect_auto. Qed.

Global Hint Resolve effect_copy_slot : effect.

Lemma balanced_ref_copy (other : ref) : balanced (ref_copy other).
Proof. unfold balanced, ref_copy. effect_auto. Qed.

Lemma balanced_ref_copy_assign (this other : ref) :
  balanced (ref_copy_assign this other).
Proof. unfold balanced, ref_copy_assign. effect_auto. Qed.

Lemma balanced_ref_assign_null (this : ref) : balanced (ref_assign_null this).
Proof. unfold balanced, ref_assign_null. effect_auto. Qed.

Lemma balanced_ref_destroy (this : ref) : balanced (ref_destroy this).
Proof. unfold balanced, ref_destroy. effect_auto. Qed.

Lemma balanced_metatable (this : ref) : balanced (metatable this).
Proof. unfold balanced, metatable. effect_auto. Qed.

Lemma balanced_isFunction (this : ref) : balanced (isFunction this).
Proof. unfold balanced, isFunction. effect_auto. Qed.

Lemma effect_any_to_string (render : lua_State → Z → string) l idx dt :
  effect (λ _, 0) dt (any_to_string render l idx).
Proof. apply effect_on_state. intros L. lia. Qed.

Lemma balanced_debug_str render (this : ref) :
  balanced (debug_str render this).
Proof.
  unfold balanced, debug_str. effect_auto.
  - eapply effect_weaken; [apply effect_any_to_string | effect_side].
  - effect_auto.
Qed.

Lemma balanced_converter_ref_from_lua l idx :
  balanced (converter_ref_from_lua l idx).
Proof. unfold balanced, converter_ref_from_lua. effect_auto. Qed.

Lemma effect_converter_ref_to_lua l (r : ref) dt :
  effect (λ _, 1) dt (converter_ref_to_lua l r).
Proof. unfold converter_ref_to_lua. effect_auto. Qed.

(** *** Converters *)

Lemma effect_pushes_one {A} (m : M A) dt : pushes_one m → effect (λ _, 1) dt m.
Proof. intros H L. specialize (H L). by destruct (m L). Qed.

Global Instance converter_ref_balanced : converter_balanced ref.
Proof.
  split.
  - apply balanced_converter_ref_from_lua.
  - intros l r L. cbn [to_lua converter_ref].
    pose proof (effect_converter_ref_to_lua l r 0 L) as H0.
    pose proof (effect_converter_ref_to_lua l r 1 L) as H1.
    destruct (converter_ref_to_lua l r L); [done|lia|done].
Qed.

Global Instance converter_int_balanced : converter_balanced Z.
Proof.
  split.
  - intros l idx. apply effect_on_state. intros L.
    destruct (index2value L idx) as [[]|]; cbv beta iota; lia.
  - intros [p|] v L; [apply gettop_push|done].
Qed.

Global Instance converter_string_balanced : converter_balanced string.
Proof.
  split.
  - intros l idx. apply effect_on_state. intros L.
    destruct (index2value L idx) as [[]|]; cbv beta iota; lia.
  - intros [p|] v L; [apply gettop_push|done].
Qed.

Lemma effect_get_from_lua {T} `{converter_balanced T} l idx :
  effect (λ _, 0) 0 (get_from_lua l idx).
Proof. apply from_lua_balanced. Qed.

Lemma effect_push_to_lua {T} `{converter_balanced T} l (t : T) dt :
  effect (λ _, 1) dt (push_to_lua l t).
Proof.
  unfold push_to_lua. eapply effect_bind.
  - apply effect_pushes_one, to_lua_pushes_one.
  - intros n. effect_auto.
Qed.

Global Hint Resolve effect_get_from_lua effect_push_to_lua : effect.

Lemma balanced_ref_as {T} `{converter_balanced T} (this : ref) :
  balanced (ref_as this).
Proof. unfold balanced, ref_as. effect_auto. Qed.

Lemma balanced_ref_is {T} `{converter_balanced T} (this : ref) :
  balanced (ref_is this).
Proof. unfold balanced, ref_is. effect_auto. Qed.

Lemma balanced_set_metatable {V} `{converter_balanced V} (this : ref) (meta : V) :
  balanced (set_metatable this meta).
Proof. unfold balanced, set_metatable. effect_auto. Qed.

Lemma effect_from_cpp {T} `{converter_balanced T} l (t : T) :
  balanced (from_cpp l t).
Proof. unfold balanced, from_cpp. effect_auto. Qed.

(** ** Table access *)

Lemma stack_rawset_tab a k v (L : lua_State) :
  stack (rawset_tab a k v L) = stack L.
Proof. unfold rawset_tab. by destruct (tables L !! a). Qed.

Section TableAccess.

Variable luaT_callTM :
  nat → list lua_value → lua_State → option (lua_State * lua_value).

(** A handler runs in a frame of its own: when it returns, the stack of the
    calling C function is what it was. *)
Hypothesis luaT_callTM_frame :
  ∀ f args (L L' : lua_State) r,
    luaT_callTM f args L = Some (L', r) → stack L' = stack L.

Lemma luaV_finishget_stack loop t k (L L' : lua_State) v :
  luaV_finishget luaT_callTM loop t k L = Some (L', v) → stack L' = stack L.
Proof.
  revert t. induction loop as [|loop IH]; intros t; [done|].
  cbn [luaV_finishget].
  destruct (luaT_gettmbyobj L t "__index") as [| | | |a|f|] eqn:Htm.
  - destruct t; congruence.
  - destruct (luaV_fastget L _ k); [congruence|apply IH].
  - destruct (luaV_fastget L _ k); [congruence|apply IH].
  - destruct (luaV_fastget L _ k); [congruence|apply IH].
  - destruct (luaV_fastget L _ k); [congruence|apply IH].
  - apply luaT_callTM_frame.
  - destruct (luaV_fastget L _ k); [congruence|apply IH].
Qed.

Lemma luaV_gettable_stack t k (L L' : lua_State) v :
  luaV_gettable luaT_callTM t k L = Some (L', v) → stack L' = stack L.
Proof.
  unfold luaV_gettable.
  destruct (luaV_fastget L t k); [congruence|apply luaV_finishget_stack].
Qed.

Lemma luaV_finishset_stack loop t k v (L L' : lua_State) :
  luaV_finishset luaT_callTM loop t k v L = Some L' → stack L' = stack L.
Proof.
  revert t. induction loop as [|loop IH]; intros t; [done|].
  cbn [luaV_finishset].
  destruct (luaT_gettmbyobj L t "__newindex") as [| | | |a|f|] eqn:Htm.
  - destruct t; try done. case_decide; [done|].
    intros [= <-]. apply stack_rawset_tab.
  - apply IH.
  - apply IH.
  - apply IH.
  - destruct (luaV_fastget L _ k); [|apply IH].
    intros [= <-]. apply stack_rawset_tab.
  - destruct (luaT_callTM f [t; k; v] L) as [[L1 r]|] eqn:Hcall; [|done].
    intros [= <-]. by apply luaT_callTM_frame in Hcall.
  - apply IH.
Qed.

Lemma luaV_settable_stack t k v (L L' : lua_State) :
  luaV_settable luaT_callTM t k v L = Some L' → stack L' = stack L.
Proof.
  unfold luaV_settable.
  destruct t; try apply luaV_finishset_stack.
  destruct (luaV_fastget L _ k); [|apply luaV_finishset_stack].
  intros [= <-]. apply stack_rawset_tab.
Qed.

Lemma effect_getfield l idx k dt :
  effect (λ _, 1) dt (lua_getfield luaT_callTM l idx k).
Proof.
  apply effect_on_state. intros L. destruct (index2value L idx) as [t|]; [|done].
  destruct (luaV_gettable luaT_callTM t (LString k) L) as [[L' v]|] eqn:Hget; [|done].
  apply luaV_gettable_stack in Hget. rewrite gettop_push. unfold gettop.
  by rewrite Hget.
Qed.

Lemma effect_settable l idx dt :
  effect (λ _, -2) dt (lua_settable luaT_callTM l idx).
Proof.
  apply effect_on_state. intros L. destruct (index2value L idx) as [t|]; [|done].
  destruct (stack L) as [|v [|k s]] eqn:Hs; [done..|].
  destruct (luaV_settable luaT_callTM t k v (set_stack s L)) as [L'|] eqn:Hset;
    [|done].
  apply luaV_settable_stack in Hset. unfold gettop. rewrite Hset, Hs.
  cbn [stack set_stack length]. lia.
Qed.

Lemma effect_rawset l idx dt : effect (λ _, -2) dt (lua_rawset l idx).
Proof.
  apply effect_on_state. intros L. destruct (index2value L idx) as [[]|]; try done.
  destruct (stack L) as [|v [|k s]] eqn:Hs; [done..|].
  case_decide; [done|]. unfold gettop. rewrite stack_rawset_tab, Hs.
  cbn [stack set_stack length]. lia.
Qed.

Hint Resolve effect_getfield effect_settable effect_rawset : effect.

Lemma balanced_value_view_ref (this : value_view) :
  balanced (value_view_ref luaT_callTM this).
Proof. unfold balanced, value_view_ref, lua. effect_auto. Qed.

Lemma balanced_value_view_assign {T} `{converter_balanced T}
  (this : value_view) (t : T) :
  balanced (value_view_assign luaT_callTM this t).
Proof. unfold balanced, value_view_assign, lua. effect_auto. Qed.

Lemma balanced_raw_set {K V} `{converter_balanced K} `{converter_balanced V}
  (this : table_view) (key : K) (value : V) :
  balanced (raw_set this key value).
Proof. unfold balanced, raw_set, lua. effect_auto. Qed.

Lemma effect_table_view_index (this : table_view) k dt :
  effect (λ _, 0) dt (table_view_index this k).
Proof. unfold table_view_index. effect_auto. Qed.

End TableAccess.

(** ** Sequences of operations on handles and views *)

Section OperationsBalance.

Variable luaT_callTM :
  nat → list lua_value → lua_State → option (lua_State * lua_value).
Variable render : lua_State → Z → string.
Context {T K V : Type}.
Context `{converter T} `{converter K} `{converter V}.

Hypothesis luaT_callTM_frame :
  ∀ f args (L L' : lua_State) r,
    luaT_callTM f args L = Some (L', r) → stack L' = stack L.
Context `{!converter_balanced T} `{!converter_balanced K} `{!converter_balanced V}.

Lemma balanced_run_op (h : ref) (o : handle_op K V) :
  balanced (run_op luaT_callTM render (T:=T) h o).
Proof.
  pose proof (balanced_value_view_ref luaT_callTM luaT_callTM_frame) as Hget.
  pose proof (balanced_value_view_assign luaT_callTM luaT_callTM_frame (T:=V)) as Hset.
  unfold balanced in *. destruct o; cbn [run_op].
  - eapply effect_bind; [apply balanced_ref_as|intros ?; effect_auto].
  - eapply effect_bind; [apply balanced_ref_is|intros ?; effect_auto].
  - eapply effect_bind; [apply balanced_metatable|intros r].
    apply balanced_ref_destroy.
  - apply balanced_set_metatable.
  - eapply effect_bind; [apply balanced_debug_str|intros ?; effect_auto].
  - eapply effect_bind; [apply balanced_isFunction|intros ?; effect_auto].
  - eapply effect_bind; [apply effect_table_view_index|intros view].
    eapply effect_bind; [apply Hget|intros r]. apply balanced_ref_destroy.
  - eapply effect_bind; [apply effect_table_view_index|intros view].
    eapply effect_bind; [apply Hset|intros ?; effect_auto].
  - apply balanced_raw_set.
Qed.

Lemma balanced_run_ops (ops : list (ref * handle_op K V)) :
  balanced (run_ops luaT_callTM render (T:=T) ops).
Proof.
  induction ops as [|[h o] rest IH]; cbn [run_ops].
  - by apply effect_ret.
  - eapply effect_bind.
    + eapply effect_try_catch; [apply balanced_run_op|].
      intros e. by apply effect_ret.
    + intros u. eapply effect_weaken; [apply IH|effect_side].
Qed.

(** C4: every operation on a handle or a view, and every sequence of them,
    hands control back with the stack as high as it found it, whether the
    operation returns or the typed read inside it throws a conversion error;
    and the stack integrity check inside it never fires. *)
Theorem stack_height_preserved
  (h : ref) (o : handle_op K V) (ops : list (ref * handle_op K V))
  (L : lua_State) :
  match run_op luaT_callTM render (T:=T) h o L with
  | Return L' _ => gettop L' = gettop L
  | Throw L' _ => gettop L' = gettop L
  | Abort f => f ≠ StackImbalance
  end ∧
  match run_ops luaT_callTM render (T:=T) ops L with
  | Return L' _ => gettop L' = gettop L
  | Throw L' _ => gettop L' = gettop L
  | Abort f => f ≠ StackImbalance
  end.
Proof.
  split.
  - pose proof (balanced_run_op h o L) as Hop.
    destruct (run_op _ _ h o L); [lia|lia|done].
  - pose proof (balanced_run_ops ops L) as Hops.
    destruct (run_ops _ _ ops L); [lia|lia|done].
Qed.

End OperationsBalance.

Lemma callTM_example_frame f args (L L' : lua_State) r :
  callTM_example f args L = Some (L', r) → stack L' = stack L.
Proof. by intros [= <- _]. Qed.

(** The sequence runs to its end: the first read fails with a conversion
    error, which the caller catches, and the operations after it go on. *)
Example example_ops_run :
  run_op callTM_example render_example (T:=Z) handle_text OpAs table_state
    = Throw table_state "not a number" ∧
  ∃ L' : lua_State,
    run_ops callTM_example render_example (T:=Z) example_ops table_state
      = Return L' () ∧
    stack L' = [] ∧
    rawget_tab L' 0 (LString "count") = LNumber 5 ∧
    rawget_tab L' 0 (LString "k") = LNumber 7.
Proof.
  split; [vm_compute; reflexivity|].
  eexists. split; [vm_compute; reflexivity|]. by vm_compute.
Qed.

Lemma stack_height_preserved_witness :
  match run_op callTM_example render_example (T:=Z) handle_text
          (OpAs : handle_op string Z) table_state with
  | Return L' _ => gettop L' = gettop table_state
  | Throw L' _ => gettop L' = gettop table_state
  | Abort f => f ≠ StackImbalance
  end ∧
  match run_ops callTM_example render_example (T:=Z) example_ops table_state with
  | Return L' _ => gettop L' = gettop table_state
  | Throw L' _ => gettop L' = gettop table_state
  | Abort f => f ≠ StackImbalance
  end.
Proof.
  exact (stack_height_preserved callTM_example render_example (T:=Z)
           callTM_example_frame handle_text OpAs example_ops table_state).
Defined.

(** ** The keyed proxy *)


Lemma index2value_third x k t s (L : lua_State) :
  stack L = x :: k :: t :: s → index2value L (-3) = Some t.
Proof. unfold index2value. simpl. by intros ->. Qed.

Lemma set_stack_twice s s' (L : lua_State) :
  set_stack s (set_stack s' L) = set_stack s L.
Proof. reflexivity. Qed.



Lemma run_push_to_lua {T} `{converter T} (t : T) x p (L : lua_State) :
  pushes t x → push_to_lua (Some p) t L = Return (push x L) ().
Proof. intros Hx. unfold push_to_lua. run. by rewrite Hx. Qed.

Section Proxy.

Variable luaT_callTM :
  nat → list lua_value → lua_State → option (lua_State * lua_value).








End Proxy.


(** ** Raw store and field assignment *)

Section Store.

Variable luaT_callTM :
  nat → list lua_value → lua_State → option (lua_State * lua_value).

Hypothesis luaT_callTM_frame :
  ∀ f args (L L' : lua_State) r,
    luaT_callTM f args L = Some (L', r) → stack L' = stack L.

Context {K V : Type} `{converter K} `{converter V}.



End Store.

Lemma pushes_string (s : string) : pushes s (LString s).
Proof. intros p L. reflexivity. Qed.

Lemma pushes_int (n : Z) : pushes n (LNumber n).
Proof. intros p L. reflexivity. Qed.

Section RawAndField.

Variable luaT_callTM :
  nat → list lua_value → lua_State → option (lua_State * lua_value).

Hypothesis luaT_callTM_frame :
  ∀ f args (L L' : lua_State) r,
    luaT_callTM f args L = Some (L', r) → stack L' = stack L.

Context {K V : Type} `{converter K} `{converter V}.


End RawAndField.


(** * Further properties of the handle *)

(** ** from_stack *)

(** from_stack returns exactly when the state pointer is not null and the
    stack is not empty; otherwise it stops on the null pointer or on its
    assert. It never throws. *)
Theorem from_stack_outcome (l : lua_State_ptr) (L : lua_State) :
  match from_stack l L with
  | Return L' r => l ≠ None ∧ stack L ≠ [] ∧ mLua r = l
  | Throw _ _ => False
  | Abort f =>
      (l = None ∧ f = NullState) ∨
      (l ≠ None ∧ stack L = [] ∧ f = AssertionFailed)
  end.
Proof.
  destruct l as [p|]; [|left; done].
  destruct (stack L) as [|v s] eqn:Hs.
  - unfold from_stack, noexcept. run. unfold gettop. rewrite Hs.
    rewrite bool_decide_false by (simpl; lia). right. done.
  - destruct (decide (v = LNil)) as [->|Hv].
    + by rewrite (from_stack_nil p s).
    + by rewrite (from_stack_value p v s).
Qed.

(** ** Destruction and moves *)

(** Destroying a handle removes its own slot from the registry and nothing
    else: the stack, the tables and every other slot are as before, and the
    destruction of a null handle leaves the whole interpreter as it is. *)
Theorem ref_destroy_frame (h : ref) (L : lua_State) :
  ref_wf h →
  ∃ L' : lua_State,
    ref_destroy h L = Return L' () ∧
    stack L' = stack L ∧
    tables L' = tables L ∧
    type_meta L' = type_meta L ∧
    (∀ k, k ≠ mPtr h → registry L' !! k = registry L !! k) ∧
    (isNull h = false → registry L' !! mPtr h = None) ∧
    (isNull h = true → L' = L).
Proof.
  intros Hwf. destruct h as [l k]. unfold ref_wf in Hwf. cbn [mPtr mLua] in *.
  unfold ref_destroy, isNull. cbn [mPtr].
  destruct (decide (k = -1)) as [->|Hk].
  - exists L. rewrite releaseIfNotNull_null.
    rewrite bool_decide_true by done. done.
  - destruct (Hwf Hk) as [Hpos Hl]. destruct l as [p|]; [|done].
    eexists. split; [by apply releaseIfNotNull_slot|].
    cbn [stack tables type_meta registry set_registry].
    rewrite bool_decide_false by done.
    repeat split; try done.
    + intros k' Hk'. by rewrite lookup_delete_ne.
    + intros _. by rewrite lookup_delete_eq.
Qed.

Lemma ref_destroy_frame_witness :
  ∃ L' : lua_State,
    ref_destroy handle_a two_slots = Return L' () ∧
    stack L' = stack two_slots ∧
    tables L' = tables two_slots ∧
    type_meta L' = type_meta two_slots ∧
    (∀ k, k ≠ mPtr handle_a → registry L' !! k = registry two_slots !! k) ∧
    (isNull handle_a = false → registry L' !! mPtr handle_a = None) ∧
    (isNull handle_a = true → L' = two_slots).
Proof.
  assert (Hwf : ref_wf handle_a).
  { intros _. simpl. split; [lia | discriminate]. }
  exact (ref_destroy_frame handle_a two_slots Hwf).
Defined.

(** A move hands the slot over: the new handle is the old one, the
    moved-from handle is the canonical null handle, and destroying both, in
    either order, releases the slot once and touches nothing else of the
    registry. The same holds for a move assignment onto a null handle. *)
Theorem ref_move_transfers (h : ref) (L : lua_State) :
  ref_wf h → isNull h = false →
  fst (ref_move h) = h ∧
  snd (ref_move h) = ref_null ∧
  ref_move_assign ref_null h = ref_move h ∧
  (ref_destroy (snd (ref_move h)) ≫= λ _, ref_destroy (fst (ref_move h))) L
    = Return (set_registry (delete (mPtr h) (registry L)) L) () ∧
  (ref_destroy (fst (ref_move h)) ≫= λ _, ref_destroy (snd (ref_move h))) L
    = Return (set_registry (delete (mPtr h) (registry L)) L) ().
Proof.
  intros Hwf Hnull. destruct h as [l k]. unfold isNull in Hnull.
  cbn [mPtr mLua] in *. apply bool_decide_eq_false in Hnull.
  destruct (Hwf Hnull) as [Hpos Hl]. destruct l as [p|]; [|done].
  unfold ref_move, ref_move_assign, ref_destroy. cbn [fst snd mLua mPtr].
  repeat split.
  - run. rewrite ?releaseIfNotNull_null. cbv beta iota.
    by rewrite releaseIfNotNull_slot.
  - run. rewrite releaseIfNotNull_slot by done. cbv beta iota.
    by rewrite ?releaseIfNotNull_null.
Qed.

Lemma ref_move_transfers_witness :
  fst (ref_move handle_a) = handle_a ∧
  snd (ref_move handle_a) = ref_null ∧
  ref_move_assign ref_null handle_a = ref_move handle_a ∧
  (ref_destroy (snd (ref_move handle_a)) ≫= λ _,
   ref_destroy (fst (ref_move handle_a))) two_slots
    = Return (set_registry (delete (mPtr handle_a) (registry two_slots)) two_slots) () ∧
  (ref_destroy (fst (ref_move handle_a)) ≫= λ _,
   ref_destroy (snd (ref_move handle_a))) two_slots
    = Return (set_registry (delete (mPtr handle_a) (registry two_slots)) two_slots) ().
Proof.
  assert (Hwf : ref_wf handle_a).
  { intros _. simpl. split; [lia | discriminate]. }
  exact (ref_move_transfers handle_a two_slots Hwf eq_refl).
Defined.

(** ** Copies of handles without a value *)

(** Copying a handle that refers to no value (a null handle, or one whose
    slot is not registered) gives a null handle of the same context and
    leaves the interpreter as it is: nothing is registered. *)
Theorem ref_copy_without_value (h : ref) (L : lua_State) :
  default LNil (registry L !! mPtr h) = LNil →
  ref_copy h L = Return L {| mLua := mLua h; mPtr := -1 |}.
Proof.
  intros Hnil. destruct h as [[p|] k]; cbn [mLua mPtr] in *.
  - unfold ref_copy. apply run_noexcept. run. unfold copy_slot. cbn [mLua mPtr].
    rewrite decide_True by done. run. rewrite push_value_to_stack_run.
    cbv beta iota. run.
    rewrite (incRef_nil p (stack L)) by by rewrite Hnil.
    cbv beta iota. run. by rewrite set_stack_push.
  - reflexivity.
Qed.

Lemma ref_copy_without_value_witness :
  ref_copy {| mLua := Some 1%positive; mPtr := -1 |} two_slots =
  Return two_slots {| mLua := Some 1%positive; mPtr := -1 |}.
Proof.
  exact (ref_copy_without_value {| mLua := Some 1%positive; mPtr := -1 |}
           two_slots eq_refl).
Defined.

(** ** Copy assignment *)

(** A copy assignment from a handle that owns a value gives the target a
    fresh slot of its own for that value, in the context of the source, and
    leaves the stack and the source's slot as they were; a self-assignment
    does nothing at all. *)
Theorem ref_copy_assign_outcome (this other : ref) p v (L : lua_State) :
  mLua other = Some p →
  registry L !! mPtr other = Some v → v ≠ LNil →
  ref_copy_assign this this L = Return L this ∧
  (¬ (mLua this = mLua other ∧ mPtr this = mPtr other) →
   ref_copy_assign this other L =
   Return (set_registry (<[fresh_ref (registry L) := v]> (registry L)) L)
          {| mLua := Some p; mPtr := fresh_ref (registry L) |} ∧
   fresh_ref (registry L) ≠ mPtr other ∧
   registry L !! fresh_ref (registry L) = None).
Proof.
  intros Hl Hk Hv. split.
  - unfold ref_copy_assign. apply run_noexcept. by rewrite decide_True.
  - intros Hne. destruct other as [l k]. cbn [mLua mPtr] in *. subst l.
    pose proof (fresh_ref_unused (registry L)) as Hfresh.
    split; [|split; [congruence|done]].
    unfold ref_copy_assign. apply run_noexcept. cbn [mLua mPtr].
    rewrite decide_False by done. run.
    rewrite (copy_slot_value p k v) by done. by run.
Qed.

Lemma ref_copy_assign_outcome_witness :
  ref_copy_assign handle_a handle_a two_slots = Return two_slots handle_a ∧
  (¬ (mLua handle_a = mLua handle_b ∧ mPtr handle_a = mPtr handle_b) →
   ref_copy_assign handle_a handle_b two_slots =
   Return (set_registry (<[fresh_ref (registry two_slots) := LNumber 20]>
                           (registry two_slots)) two_slots)
          {| mLua := Some 1%positive; mPtr := fresh_ref (registry two_slots) |} ∧
   fresh_ref (registry two_slots) ≠ mPtr handle_b ∧
   registry two_slots !! fresh_ref (registry two_slots) = None).
Proof.
  assert (Hv : LNumber 20 ≠ LNil) by discriminate.
  exact (ref_copy_assign_outcome handle_a handle_b 1%positive (LNumber 20)
           two_slots eq_refl eq_refl Hv).
Defined.

(** ** metatable, set_metatable, isFunction *)

Lemma run_getmetatable_top p v s (L : lua_State) :
  stack L = v :: s →
  lua_getmetatable (Some p) (-1) L =
  match metatable_of L v with
  | Some mt => Return (push (LTable mt) L) true
  | None => Return L false
  end.
Proof.
  intros H. unfold lua_getmetatable, on_state.
  by rewrite (index2value_top v s).
Qed.

Lemma metatable_none p k (L : lua_State) :
  metatable_of L (default LNil (registry L !! k)) = None →
  metatable {| mLua := Some p; mPtr := k |} L = Return L ref_null.
Proof.
  set (v := default LNil (registry L !! k)). intros Hmt.
  assert (Hmeta : metatable_of (push v L) v = None) by done.
  unfold metatable. cbn [mLua mPtr].
  apply run_noexcept. apply stack_integrity_check_return; [|done].
  run. rewrite push_value_to_stack_run. cbv beta iota. fold v. run.
  rewrite (run_getmetatable_top p v (stack L)) by done.
  rewrite Hmeta. cbv beta iota. run.
  rewrite run_pop_push. by run.
Qed.

Lemma metatable_some p k mt (L : lua_State) :
  metatable_of L (default LNil (registry L !! k)) = Some mt →
  metatable {| mLua := Some p; mPtr := k |} L =
  Return (set_registry (<[fresh_ref (registry L) := LTable mt]> (registry L)) L)
         {| mLua := Some p; mPtr := fresh_ref (registry L) |}.
Proof.
  set (v := default LNil (registry L !! k)). intros Hmt.
  assert (Hmeta : metatable_of (push v L) v = Some mt) by done.
  unfold metatable. cbn [mLua mPtr].
  apply run_noexcept.
  apply (stack_integrity_check_return p _ L
           (set_registry (<[fresh_ref (registry L) := LTable mt]> (registry L)) L)
           {| mLua := Some p; mPtr := fresh_ref (registry L) |}); [|done].
  run. rewrite push_value_to_stack_run. cbv beta iota. fold v. run.
  rewrite (run_getmetatable_top p v (stack L)) by done.
  rewrite Hmeta. cbv beta iota. run.
  rewrite (from_stack_value p (LTable mt) (v :: stack L)) by done.
  cbv beta iota. run.
  rewrite (run_pop_one p v (stack L)) by done. run.
  by destruct L.
Qed.

(** metatable leaves the stack as it was. For a value without a metatable it
    returns the canonical null handle and leaves the whole interpreter as it
    was; for a value with one it returns a handle that owns a fresh slot
    holding that metatable. *)
Theorem metatable_outcome p k (L : lua_State) :
  metatable {| mLua := Some p; mPtr := k |} L =
  match metatable_of L (default LNil (registry L !! k)) with
  | None => Return L ref_null
  | Some mt =>
      Return (set_registry (<[fresh_ref (registry L) := LTable mt]> (registry L)) L)
             {| mLua := Some p; mPtr := fresh_ref (registry L) |}
  end.
Proof.
  destruct (metatable_of L (default LNil (registry L !! k))) as [mt|] eqn:Hmt.
  - by apply metatable_some.
  - by apply metatable_none.
Qed.

Lemma run_isfunction_top p v s (L : lua_State) :
  stack L = v :: s →
  lua_isfunction (Some p) (-1) L =
  Return L (match v with LFunction _ => true | _ => false end).
Proof.
  intros H. unfold lua_isfunction, on_state.
  by rewrite (index2value_top v s).
Qed.

(** isFunction leaves the interpreter as it was and answers true exactly
    when the referenced value is a function; a slot that is not registered
    reads as nil, which is not a function. *)
Theorem isFunction_outcome p k (L : lua_State) :
  isFunction {| mLua := Some p; mPtr := k |} L =
  Return L (match default LNil (registry L !! k) with
            | LFunction _ => true
            | _ => false
            end).
Proof.
  unfold isFunction. cbn [mLua mPtr]. apply run_noexcept.
  apply stack_integrity_check_return; [|done].
  run. rewrite push_value_to_stack_run. cbv beta iota. run.
  rewrite (run_isfunction_top p (default LNil (registry L !! k)) (stack L)) by done.
  cbv beta iota. run. rewrite run_pop_push. by run.
Qed.

Lemma set_metatable_of_set_stack v mo s (L : lua_State) :
  set_metatable_of v mo (set_stack s L) = set_stack s (set_metatable_of v mo L).
Proof.
  unfold set_metatable_of.
  destruct v, mo; try done; cbn [tables set_stack]; by destruct (tables L !! a).
Qed.

Lemma registry_set_metatable_of v mo (L : lua_State) :
  registry (set_metatable_of v mo L) = registry L.
Proof.
  unfold set_metatable_of.
  destruct v, mo; try done; by destruct (tables L !! a).
Qed.

(** Installing a metatable and asking for it agree, for a table that is in
    the heap and for a value of any other type. *)
Lemma metatable_of_set_metatable_of v mo (L : lua_State) :
  (∀ a, v = LTable a → is_Some (tables L !! a)) →
  metatable_of (set_metatable_of v mo L) v = mo.
Proof.
  intros Htab. unfold metatable_of, set_metatable_of.
  destruct v; try (destruct mo; cbn [type_meta set_type_meta];
                   by rewrite ?lookup_insert_eq, ?lookup_delete_eq).
  destruct (Htab a eq_refl) as [t Ht]. rewrite Ht. cbn [tables set_tables].
  by rewrite lookup_insert_eq.
Qed.

Lemma run_setmetatable_second p x v s mo (L : lua_State) :
  stack L = x :: v :: s → x = meta_value mo →
  lua_setmetatable (Some p) (-2) L =
  Return (set_metatable_of v mo (set_stack (v :: s) L)) ().
Proof.
  intros Hs ->. unfold lua_setmetatable, on_state, index2value. simpl.
  rewrite Hs. by destruct mo.
Qed.

Section Metatable.

Context {V : Type} `{converter V}.

(** set_metatable followed by metatable is a round trip. When the push of
    [meta] on top of the referenced value pushes a table (or nil),
    set_metatable installs it on the referenced value and leaves the stack
    and the registry untouched; metatable then answers with a handle on that
    table (or with the canonical null handle). *)
Theorem set_metatable_then_metatable (meta : V) mo p k v (L : lua_State) :
  registry L !! k = Some v →
  (∀ a, v = LTable a → is_Some (tables L !! a)) →
  to_lua (Some p) meta (push v L) = Return (push (meta_value mo) (push v L)) 1 →
  ∃ L1 : lua_State,
    set_metatable {| mLua := Some p; mPtr := k |} meta L = Return L1 () ∧
    stack L1 = stack L ∧
    registry L1 = registry L ∧
    metatable_of L1 v = mo ∧
    metatable {| mLua := Some p; mPtr := k |} L1 =
    match mo with
    | None => Return L1 ref_null
    | Some mt =>
        Return (set_registry (<[fresh_ref (registry L) := LTable mt]> (registry L)) L1)
               {| mLua := Some p; mPtr := fresh_ref (registry L) |}
    end.
Proof.
  intros Hk Htab Hmeta. exists (set_metatable_of v mo L).
  assert (Hstack : stack (set_metatable_of v mo L) = stack L)
    by apply stack_set_metatable_of.
  pose proof (registry_set_metatable_of v mo L) as Hreg.
  pose proof (metatable_of_set_metatable_of v mo L Htab) as Hmo.
  split; [|split; [done|split; [done|split; [done|]]]].
  - unfold set_metatable. cbn [mLua mPtr]. apply run_noexcept.
    apply (stack_integrity_check_return p _ L (set_metatable_of v mo L) ());
      [|unfold gettop; by rewrite Hstack].
    run. rewrite push_value_to_stack_run, Hk. cbv beta iota.
    cbn [default from_option id]. run.
    unfold push_to_lua at 1. run. rewrite Hmeta. cbv beta iota. run.
    rewrite (run_setmetatable_second p (meta_value mo) v (stack L) mo) by done.
    cbv beta iota.
    rewrite (run_pop_one p v (stack L))
      by by rewrite stack_set_metatable_of.
    unfold push. rewrite !set_metatable_of_set_stack, !set_stack_twice.
    rewrite <- Hstack at 1. by rewrite set_stack_same.
  - destruct mo as [mt|].
    + rewrite (metatable_some p k mt); [by rewrite Hreg|].
      by rewrite Hreg, Hk.
    + apply metatable_none. by rewrite Hreg, Hk.
Qed.

End Metatable.

Lemma set_metatable_then_metatable_witness :
  ∃ L1 : lua_State,
    set_metatable handle_table handle_table table_state = Return L1 () ∧
    stack L1 = stack table_state ∧
    registry L1 = registry table_state ∧
    metatable_of L1 (LTable 0) = Some 0%nat ∧
    metatable handle_table L1 =
    Return (set_registry (<[fresh_ref (registry table_state) := LTable 0]>
                            (registry table_state)) L1)
           {| mLua := Some 1%positive; mPtr := fresh_ref (registry table_state) |}.
Proof.
  assert (Htab : ∀ a, LTable 0 = LTable a → is_Some (tables table_state !! a)).
  { intros a [= <-]. eexists. reflexivity. }
  exact (set_metatable_then_metatable handle_table (Some 0%nat) 1%positive 1
           (LTable 0) table_state eq_refl Htab eq_refl).
Defined.

(** ** converter<clg::ref> on a handle that owns a value *)



(** ** from_cpp, as and is *)

Lemma stack_integrity_check_throw {A} p (body : M A) (L L' : lua_State) e :
  body L = Throw L' e → gettop L' = gettop L →
  stack_integrity_check (Some p) body L = Throw L' e.
Proof.
  intros Hb Ht. unfold stack_integrity_check. run. rewrite Hb.
  by rewrite decide_True.
Qed.

Lemma stack_integrity_check_abort {A} p (body : M A) (L : lua_State) f :
  body L = Abort f → stack_integrity_check (Some p) body L = Abort f.
Proof. intros Hb. unfold stack_integrity_check. run. by rewrite Hb. Qed.

Lemma run_pop_top p (L : lua_State) :
  gettop L > 0 →
  lua_pop (Some p) 1 L = Return (set_stack (drop 1 (stack L)) L) ().
Proof.
  intros Hpos. destruct (stack L) as [|v s] eqn:Hs.
  - unfold gettop in Hpos. rewrite Hs in Hpos. simpl in Hpos. lia.
  - by rewrite (run_pop_one p v s).
Qed.

Lemma gettop_drop_one (L : lua_State) :
  gettop L > 0 → gettop (set_stack (drop 1 (stack L)) L) = gettop L - 1.
Proof.
  unfold gettop. cbn [stack set_stack]. rewrite length_drop. lia.
Qed.

Section TypedRead.

Context {T : Type} `{converter T}.

Lemma ref_read_not_null p k : k ≠ -1 →
  negb (isNull {| mLua := Some p; mPtr := k |}) = true.
Proof. intros Hk. unfold isNull. cbn [mPtr]. by rewrite bool_decide_false. Qed.

Lemma ref_as_return p k (L L2 : lua_State) (a : T) :
  k ≠ -1 →
  from_lua (Some p) (-1) (push (default LNil (registry L !! k)) L) = Return L2 a →
  gettop L2 = gettop L + 1 →
  ref_as {| mLua := Some p; mPtr := k |} L =
  Return (set_stack (drop 1 (stack L2)) L2) a.
Proof.
  intros Hk Hread Htop.
  assert (Hpos : gettop L2 > 0) by (unfold gettop in *; lia).
  pose proof (gettop_drop_one L2 Hpos) as Hdrop.
  unfold ref_as. rewrite ref_read_not_null by done. cbn [mLua mPtr]. run.
  apply stack_integrity_check_return; [|lia]. run.
  rewrite push_value_to_stack_run. cbv beta iota. unfold try_catch. run.
  unfold get_from_lua. rewrite Hread. cbv beta iota. run.
  rewrite run_pop_top by done. by run.
Qed.

Lemma ref_as_throw p k (L L2 : lua_State) e :
  k ≠ -1 →
  from_lua (Some p) (-1) (push (default LNil (registry L !! k)) L) = Throw L2 e →
  gettop L2 = gettop L + 1 →
  (ref_as {| mLua := Some p; mPtr := k |} L : exit T) =
  Throw (set_stack (drop 1 (stack L2)) L2) e.
Proof.
  intros Hk Hread Htop.
  assert (Hpos : gettop L2 > 0) by (unfold gettop in *; lia).
  pose proof (gettop_drop_one L2 Hpos) as Hdrop.
  unfold ref_as. rewrite ref_read_not_null by done. cbn [mLua mPtr]. run.
  apply stack_integrity_check_throw; [|lia]. run.
  rewrite push_value_to_stack_run. cbv beta iota. unfold try_catch. run.
  unfold get_from_lua. rewrite Hread. cbv beta iota. run.
  rewrite run_pop_top by done. by run.
Qed.

Lemma ref_as_abort p k (L : lua_State) f :
  k ≠ -1 →
  from_lua (Some p) (-1) (push (default LNil (registry L !! k)) L) = Abort f →
  (ref_as {| mLua := Some p; mPtr := k |} L : exit T) = Abort f.
Proof.
  intros Hk Hread.
  unfold ref_as. rewrite ref_read_not_null by done. cbn [mLua mPtr]. run.
  apply stack_integrity_check_abort. run.
  rewrite push_value_to_stack_run. cbv beta iota. unfold try_catch. run.
  unfold get_from_lua. by rewrite Hread.
Qed.

Lemma ref_is_present p k (L L2 : lua_State) (a : T) :
  k ≠ -1 →
  from_lua (Some p) (-1) (push (default LNil (registry L !! k)) L) = Return L2 a →
  gettop L2 = gettop L + 1 →
  ref_is {| mLua := Some p; mPtr := k |} L =
  Return (set_stack (drop 1 (stack L2)) L2) (Some a).
Proof.
  intros Hk Hread Htop.
  assert (Hpos : gettop L2 > 0) by (unfold gettop in *; lia).
  pose proof (gettop_drop_one L2 Hpos) as Hdrop.
  unfold ref_is. rewrite ref_read_not_null by done. cbn [mLua mPtr]. run.
  apply stack_integrity_check_return; [|lia]. run.
  rewrite push_value_to_stack_run. cbv beta iota. unfold try_catch. run.
  unfold get_from_lua. rewrite Hread. cbv beta iota. run.
  rewrite run_pop_top by done. by run.
Qed.

Lemma ref_is_absent p k (L L2 : lua_State) e :
  k ≠ -1 →
  from_lua (Some p) (-1) (push (default LNil (registry L !! k)) L) = Throw L2 e →
  gettop L2 = gettop L + 1 →
  (ref_is {| mLua := Some p; mPtr := k |} L : exit (option T)) =
  Return (set_stack (drop 1 (stack L2)) L2) None.
Proof.
  intros Hk Hread Htop.
  assert (Hpos : gettop L2 > 0) by (unfold gettop in *; lia).
  pose proof (gettop_drop_one L2 Hpos) as Hdrop.
  unfold ref_is. rewrite ref_read_not_null by done. cbn [mLua mPtr]. run.
  apply stack_integrity_check_return; [|lia]. run.
  rewrite push_value_to_stack_run. cbv beta iota. unfold try_catch. run.
  unfold get_from_lua. rewrite Hread. cbv beta iota. run.
  rewrite run_pop_top by done. by run.
Qed.

Lemma ref_is_abort p k (L : lua_State) f :
  k ≠ -1 →
  from_lua (Some p) (-1) (push (default LNil (registry L !! k)) L) = Abort f →
  (ref_is {| mLua := Some p; mPtr := k |} L : exit (option T)) = Abort f.
Proof.
  intros Hk Hread.
  unfold ref_is. rewrite ref_read_not_null by done. cbn [mLua mPtr]. run.
  apply stack_integrity_check_abort. run.
  rewrite push_value_to_stack_run. cbv beta iota. unfold try_catch. run.
  unfold get_from_lua. by rewrite Hread.
Qed.

(** What as and is do with the outcome of the typed read, on a handle that
    is not null. The value is pushed and the converter reads the top of the
    stack. If it returns, as returns its value and is returns it as a
    present result; if it throws, as throws the same error and is returns
    the absent result; in all four cases the pushed value has been popped.
    If the converter stops, both stop. *)
Theorem ref_as_is_outcome p k (L : lua_State) :
  k ≠ -1 →
  match from_lua (Some p) (-1) (push (default LNil (registry L !! k)) L) with
  | Return L2 a =>
      gettop L2 = gettop L + 1 →
      ref_as {| mLua := Some p; mPtr := k |} L =
        Return (set_stack (drop 1 (stack L2)) L2) a ∧
      ref_is {| mLua := Some p; mPtr := k |} L =
        Return (set_stack (drop 1 (stack L2)) L2) (Some a)
  | Throw L2 e =>
      gettop L2 = gettop L + 1 →
      ref_as {| mLua := Some p; mPtr := k |} L =
        Throw (set_stack (drop 1 (stack L2)) L2) e ∧
      ref_is {| mLua := Some p; mPtr := k |} L =
        Return (set_stack (drop 1 (stack L2)) L2) None
  | Abort f =>
      ref_as {| mLua := Some p; mPtr := k |} L = Abort f ∧
      ref_is {| mLua := Some p; mPtr := k |} L = Abort f
  end.
Proof.
  intros Hk.
  destruct (from_lua (Some p) (-1) (push (default LNil (registry L !! k)) L))
    as [L2 a|L2 e|f] eqn:Hread.
  - intros Htop. split; [by apply ref_as_return|by apply ref_is_present].
  - intros Htop. split; [by apply ref_as_throw|by apply (ref_is_absent p k L L2 e)].
  - split; [by apply ref_as_abort|by apply ref_is_abort].
Qed.

End TypedRead.

Lemma ref_as_is_outcome_witness :
  (ref_as handle_text table_state = (Throw table_state "not a number" : exit Z) ∧
   ref_is handle_text table_state = (Return table_state None : exit (option Z))) ∧
  (ref_as handle_a two_slots = Return two_slots 10 ∧
   ref_is handle_a two_slots = Return two_slots (Some 10)).
Proof.
  assert (H2 : (2 : Z) ≠ -1) by lia.
  assert (H1 : (1 : Z) ≠ -1) by lia.
  split.
  - exact (ref_as_is_outcome (T:=Z) 1%positive 2 table_state H2 eq_refl).
  - exact (ref_as_is_outcome (T:=Z) 1%positive 1 two_slots H1 eq_refl).
Defined.

Section FromCpp.

Context {T : Type} `{converter T}.

Lemma from_cpp_value (t : T) x p (L : lua_State) :
  pushes t x → x ≠ LNil →
  from_cpp (Some p) t L =
  Return (set_registry (<[fresh_ref (registry L) := x]> (registry L)) L)
         {| mLua := Some p; mPtr := fresh_ref (registry L) |}.
Proof.
  intros Hx Hnil. unfold from_cpp. run.
  rewrite (run_push_to_lua t x) by done. cbv beta iota.
  rewrite (from_stack_value p x (stack L)) by done.
  by destruct L.
Qed.

(** from_cpp followed by as is a round trip: for a native value whose push
    capability pushes a value that is not nil and whose typed read gives the
    native value back, from_cpp returns a non-null handle that owns a fresh
    slot holding the pushed value, with the stack as it was, and as on that
    handle returns the native value and leaves the interpreter as it is. *)
Theorem from_cpp_round_trip (t : T) x p (L : lua_State) :
  pushes t x → x ≠ LNil →
  (∀ L1 : lua_State,
     index2value L1 (-1) = Some x → from_lua (Some p) (-1) L1 = Return L1 t) →
  ∃ (L' : lua_State) (r : ref),
    from_cpp (Some p) t L = Return L' r ∧
    isNull r = false ∧
    stack L' = stack L ∧
    registry L !! mPtr r = None ∧
    registry L' = <[mPtr r := x]> (registry L) ∧
    ref_as r L' = Return L' t.
Proof.
  intros Hx Hnil Hread.
  pose proof (fresh_ref_positive (registry L)) as Hpos.
  eexists _, _. split; [by apply from_cpp_value|].
  cbn [mPtr stack registry set_registry].
  split; [unfold isNull; cbn [mPtr]; apply bool_decide_false; lia|].
  split; [done|]. split; [apply fresh_ref_unused|]. split; [done|].
  set (L' := set_registry (<[fresh_ref (registry L) := x]> (registry L)) L).
  assert (Hk : fresh_ref (registry L) ≠ -1) by lia.
  assert (Hslot : registry L' !! fresh_ref (registry L) = Some x)
    by apply lookup_insert_eq.
  rewrite (ref_as_return p (fresh_ref (registry L)) L' (push x L') t); [done|done| |].
  - rewrite Hslot. cbn [default from_option id]. by apply Hread.
  - apply gettop_push.
Qed.

(** from_cpp of a native value whose representation is nil returns a null
    handle and leaves the interpreter as it was. *)
Theorem from_cpp_nil (t : T) p (L : lua_State) :
  pushes t LNil →
  from_cpp (Some p) t L = Return L {| mLua := Some p; mPtr := -1 |}.
Proof.
  intros Hx. unfold from_cpp. run.
  rewrite (run_push_to_lua t LNil) by done. cbv beta iota.
  rewrite (from_stack_nil p (stack L)) by done.
  by rewrite set_stack_push.
Qed.

End FromCpp.

Lemma from_cpp_round_trip_witness :
  ∃ (L' : lua_State) (r : ref),
    from_cpp (Some 1%positive) 42 two_slots = Return L' r ∧
    isNull r = false ∧
    stack L' = stack two_slots ∧
    registry two_slots !! mPtr r = None ∧
    registry L' = <[mPtr r := LNumber 42]> (registry two_slots) ∧
    ref_as r L' = Return L' 42.
Proof.
  assert (Hnil : LNumber 42 ≠ LNil) by discriminate.
  assert (Hread : ∀ L1 : lua_State,
            index2value L1 (-1) = Some (LNumber 42) →
            from_lua (Some 1%positive) (-1) L1 = Return L1 42).
  { intros L1 H1. cbn [from_lua converter_int].
    unfold converter_int_from_lua, on_state. rewrite H1. reflexivity. }
  exact (from_cpp_round_trip 42 (LNumber 42) 1%positive two_slots
           (pushes_int 42) Hnil Hread).
Defined.

Lemma from_cpp_nil_witness :
  from_cpp (Some 1%positive) ref_null two_slots =
  Return two_slots {| mLua := Some 1%positive; mPtr := -1 |}.
Proof.
  assert (Hpush : pushes ref_null LNil).
  { intros p L. reflexivity. }
  exact (from_cpp_nil ref_null 1%positive two_slots Hpush).
Defined.

(** ** is never throws *)

Lemma no_throw_bind {A B} (m : M A) (k : A → M B) :
  no_throw m → (∀ a, no_throw (k a)) → no_throw (m ≫= k).
Proof.
  intros Hm Hk L. rewrite run_bind. specialize (Hm L).
  destruct (m L) as [L' a| |]; [apply Hk|done|done].
Qed.

Lemma no_throw_ret {A} (a : A) : no_throw (mret a : M A).
Proof. by intros L. Qed.

Lemma no_throw_noexcept {A} (m : M A) : no_throw (noexcept m).
Proof. intros L. unfold noexcept. by destruct (m L). Qed.

Lemma no_throw_on_state {A} l (m : M A) : no_throw m → no_throw (on_state l m).
Proof. intros Hm. by destruct l. Qed.

Lemma no_throw_pop l n : no_throw (lua_pop l n).
Proof. apply no_throw_on_state. intros L. by case_decide. Qed.

Lemma no_throw_assert b : no_throw (assert_ b).
Proof. by destruct b. Qed.

Lemma no_throw_try_catch {A} (body : M A) handler :
  (∀ e, no_throw (handler e)) → no_throw (try_catch body handler).
Proof.
  intros Hh L. unfold try_catch. destruct (body L) as [|L' e|]; [done| |done].
  apply Hh.
Qed.

Lemma no_throw_guard {A} l (body : M A) :
  no_throw body → no_throw (stack_integrity_check l body).
Proof.
  intros Hb L. unfold stack_integrity_check. rewrite run_bind.
  destruct l as [p|]; [|done]. rewrite run_gettop. specialize (Hb L).
  destruct (body L); [by case_decide|done|done].
Qed.

(** is never leaves by an exception, whatever the converter does: a
    conversion error becomes the absent result. value, which is as inside a
    noexcept function, never throws either: there a conversion error ends
    the program. *)
Theorem ref_is_never_throws {T : Type} `{converter T} (h : ref) :
  no_throw (ref_is h : M (option T)) ∧ no_throw (ref_value h : M T).
Proof.
  split; [|apply no_throw_noexcept].
  unfold ref_is. apply no_throw_bind; [apply no_throw_assert|]. intros _.
  apply no_throw_guard. apply no_throw_bind; [apply no_throw_noexcept|].
  intros _. apply no_throw_try_catch. intros e.
  apply no_throw_bind; [apply no_throw_pop|]. intros _. apply no_throw_ret.
Qed.

(** ** Keyed access: present keys, store then read, writes on other values *)



Section KeyedAccess.

Variable luaT_callTM :
  nat → list lua_value → lua_State → option (lua_State * lua_value).


Lemma luaV_finishset_non_table loop t k v (L : lua_State) :
  (∀ a, t ≠ LTable a) →
  luaT_gettmbyobj L t "__newindex" = LNil →
  luaV_finishset luaT_callTM (S loop) t k v L = None.
Proof.
  intros Ht Htm. cbn [luaV_finishset]. rewrite Htm.
  destruct t; try done. by destruct (Ht a).
Qed.

Lemma luaV_settable_non_table t k v (L : lua_State) :
  (∀ a, t ≠ LTable a) →
  luaV_settable luaT_callTM t k v L = luaV_finishset luaT_callTM MAXTAGLOOP t k v L.
Proof.
  intros Ht. unfold luaV_settable. destruct t; try done. by destruct (Ht a).
Qed.



Context {K V : Type} `{converter K} `{converter V}.


(** Writing through a view of a value that is not a table does not return:
    raw_set asks lua_rawset for something outside its contract, and the
    assignment through the proxy raises the error of the interpreter when
    the value has no __newindex handler. *)
Theorem write_on_non_container p k v field (key : K) (value : V) kv x (L : lua_State) :
  registry L !! k = Some v →
  (∀ a, v ≠ LTable a) →
  pushes key kv → pushes value x →
  raw_set {| mLua := Some p; mPtr := k |} key value L = Abort ApiViolation ∧
  (luaT_gettmbyobj L v "__newindex" = LNil →
   value_view_assign luaT_callTM
     {| table := {| mLua := Some p; mPtr := k |}; name := field |} value L =
   Abort LuaError).
Proof.
  intros Hk Hv Hkey Hval. split.
  - unfold raw_set, lua, noexcept. cbn [mLua].
    rewrite (stack_integrity_check_abort p _ L ApiViolation); [done|].
    run. rewrite push_value_to_stack_run, Hk. cbv beta iota.
    cbn [default from_option id]. run.
    rewrite (run_push_to_lua key kv) by done. cbv beta iota. run.
    rewrite (run_push_to_lua value x) by done. cbv beta iota. run.
    unfold lua_rawset at 1, on_state.
    rewrite (index2value_third x kv v (stack L)) by done.
    destruct v; try done. by destruct (Hv a).
  - intros Htm. unfold value_view_assign, lua, noexcept. cbn [table name mLua].
    rewrite (stack_integrity_check_abort p _ L LuaError); [done|].
    run. rewrite push_value_to_stack_run, Hk. cbv beta iota.
    cbn [default from_option id]. run.
    rewrite (run_push_to_lua value x) by done. cbv beta iota. run.
    unfold lua_settable at 1, on_state.
    rewrite (index2value_third x (LString field) v (stack L)) by done.
    cbn [stack push set_stack].
    assert (Hset : luaV_settable luaT_callTM v (LString field) x
                     (set_stack (v :: stack L)
                        (push x (push (LString field) (push v L)))) = None).
    { rewrite luaV_settable_non_table by done.
      by apply (luaV_finishset_non_table (pred MAXTAGLOOP)). }
    by rewrite Hset.
Qed.

End KeyedAccess.

(** ** Field assignment, then read *)

Section AssignThenGet.

Variable luaT_callTM :
  nat → list lua_value → lua_State → option (lua_State * lua_value).

Hypothesis luaT_callTM_frame :
  ∀ f args (L L' : lua_State) r,
    luaT_callTM f args L = Some (L', r) → stack L' = stack L.

Context {V : Type} `{converter V}.


End AssignThenGet.




Lemma write_on_non_container_witness :
  raw_set handle_text "k" 7 table_state = Abort ApiViolation ∧
  (luaT_gettmbyobj table_state (LString "x") "__newindex" = LNil →
   value_view_assign callTM_example
     {| table := handle_text; name := "k" |} 7 table_state =
   Abort LuaError).
Proof.
  assert (Hv : ∀ a, LString "x" ≠ LTable a) by discriminate.
  exact (write_on_non_container callTM_example 1%positive 2 (LString "x") "k"
           "k" 7 (LString "k") (LNumber 7) table_state eq_refl Hv
           (pushes_string "k") (pushes_int 7)).
Defined.

(** ** Every handle the class builds is well formed *)

Lemma builds_wf_ret (r : ref) : ref_wf r → builds_wf (mret r).
Proof. intros Hr L L' r'. rewrite run_ret. by intros [= _ <-]. Qed.

Lemma builds_wf_bind {A} (m : M A) (k : A → M ref) :
  (∀ a, builds_wf (k a)) → builds_wf (m ≫= k).
Proof.
  intros Hk L L' r. rewrite run_bind.
  destruct (m L) as [L1 a| |]; [apply Hk|done|done].
Qed.

Lemma builds_wf_bind_ref (m : M ref) (k : ref → M ref) :
  builds_wf m → (∀ a, ref_wf a → builds_wf (k a)) → builds_wf (m ≫= k).
Proof.
  intros Hm Hk L L' r. rewrite run_bind.
  destruct (m L) as [L1 a| |] eqn:Hrun; [|done|done].
  apply Hk. by apply (Hm L L1).
Qed.

Lemma builds_wf_noexcept (m : M ref) : builds_wf m → builds_wf (noexcept m).
Proof.
  intros Hm L L' r. unfold noexcept.
  destruct (m L) as [L1 a| |] eqn:Hrun; [|done|done].
  intros [= <- <-]. by apply (Hm L L1).
Qed.

Lemma builds_wf_guard l (body : M ref) :
  builds_wf body → builds_wf (stack_integrity_check l body).
Proof.
  intros Hb L L' r. unfold stack_integrity_check. rewrite run_bind.
  destruct l as [p|]; [|done]. rewrite run_gettop.
  destruct (body L) as [L1 a| |] eqn:Hrun; [|by case_decide|done].
  case_decide; [|done]. intros [= <- <-]. by apply (Hb L L1).
Qed.

Lemma builds_wf_from_stack l : builds_wf (from_stack l).
Proof.
  intros L L' r. destruct l as [p|]; [apply from_stack_wf|done].
Qed.

Lemma ref_wf_null : ref_wf ref_null.
Proof. intros Hk. by destruct Hk. Qed.

Lemma ref_copy_assign_as_copy (this other : ref) (L : lua_State) :
  ¬ (mLua this = mLua other ∧ mPtr this = mPtr other) →
  ref_copy_assign this other L = ref_copy other L.
Proof.
  intros Hne. unfold ref_copy_assign, ref_copy, noexcept.
  by rewrite decide_False.
Qed.

(** The class keeps its invariant: every handle that a constructor, an
    assignment, metatable, a proxy, the converter or from_cpp hands out is
    null or owns a positive slot in a context that is not null, given that
    the handles it starts from are. *)
Theorem handles_stay_well_formed
  (luaT_callTM : nat → list lua_value → lua_State → option (lua_State * lua_value))
  (h this other : ref) (view : value_view) (l : lua_State_ptr) (n : Z) :
  builds_wf (from_stack l) ∧
  builds_wf (ref_copy other) ∧
  (ref_wf this → builds_wf (ref_copy_assign this other)) ∧
  builds_wf (ref_assign_null this) ∧
  (ref_wf h → ref_wf (fst (ref_move h)) ∧ ref_wf (snd (ref_move h)) ∧
              ref_wf (fst (ref_move_assign this h)) ∧
              ref_wf (snd (ref_move_assign this h))) ∧
  builds_wf (metatable h) ∧
  builds_wf (value_view_ref luaT_callTM view) ∧
  builds_wf (converter_ref_from_lua l n) ∧
  (∀ (T : Type) (C : converter T) (t : T), builds_wf (from_cpp l t)).
Proof.
  split; [apply builds_wf_from_stack|].
  split; [intros L L' r; apply ref_copy_wf|].
  split.
  { intros Hthis L L' r.
    destruct (decide (mLua this = mLua other ∧ mPtr this = mPtr other)) as [Hs|Hs].
    - unfold ref_copy_assign, noexcept. rewrite decide_True by done.
      by intros [= _ <-].
    - rewrite ref_copy_assign_as_copy by done. apply ref_copy_wf. }
  split.
  { unfold ref_assign_null. apply builds_wf_noexcept, builds_wf_bind.
    intros _. apply builds_wf_ret. intros Hk. by destruct Hk. }
  split.
  { intros Hh. unfold ref_move, ref_move_assign. cbn [fst snd].
    repeat split; try (by destruct h; apply Hh); by apply ref_wf_null. }
  split.
  { unfold metatable. apply builds_wf_noexcept, builds_wf_guard, builds_wf_bind.
    intros _. apply builds_wf_bind. intros [|].
    - apply builds_wf_bind_ref; [apply builds_wf_from_stack|].
      intros r Hr. apply builds_wf_bind. intros _. by apply builds_wf_ret.
    - apply builds_wf_bind. intros _. apply builds_wf_ret, ref_wf_null. }
  split.
  { unfold value_view_ref. apply builds_wf_noexcept, builds_wf_guard, builds_wf_bind.
    intros _. apply builds_wf_bind. intros [|]; cbn [negb].
    - apply builds_wf_bind. intros _.
      apply builds_wf_bind_ref; [apply builds_wf_from_stack|].
      intros r Hr. apply builds_wf_bind. intros _. by apply builds_wf_ret.
    - apply builds_wf_bind. intros _. apply builds_wf_ret, ref_wf_null. }
  split.
  { unfold converter_ref_from_lua. apply builds_wf_bind. intros _.
    apply builds_wf_from_stack. }
  intros T C t. unfold from_cpp. apply builds_wf_bind. intros _.
  apply builds_wf_from_stack.
Qed.

(** ** Stack effects of the life cycle *)

(** Outside the operations on a handle's value, the stack moves only where
    a value is handed over: from_stack takes one value off, the converter's
    push adds one, and copy construction, copy assignment, assignment of
    null, destruction, the converter's read and from_cpp leave the height as
    they found it, on every exit. *)
Theorem life_cycle_stack_effects (this other : ref) (l : lua_State_ptr) (n : Z) :
  effect (λ _, -1) 0 (from_stack l) ∧
  effect (λ _, 1) 0 (converter_ref_to_lua l other) ∧
  balanced (converter_ref_from_lua l n) ∧
  balanced (ref_copy other) ∧
  balanced (ref_copy_assign this other) ∧
  balanced (ref_assign_null this) ∧
  balanced (ref_destroy this) ∧
  (∀ (T : Type) (C : converter T), converter_balanced T →
     ∀ t : T, balanced (from_cpp l t)).
Proof.
  split; [apply effect_from_stack|].
  split; [apply effect_converter_ref_to_lua|].
  split; [apply balanced_converter_ref_from_lua|].
  split; [apply balanced_ref_copy|].
  split; [apply balanced_ref_copy_assign|].
  split; [apply balanced_ref_assign_null|].
  split; [apply balanced_ref_destroy|].
  intros T C HC t. apply effect_from_cpp.
Qed.
